(** * ComboBox: navigation, selection and visibility state machine

    A shallow embedding of
    [src/components/Autocomplete/components/ComboBox/ComboBox.tsx].

    The component keeps React state (the highlighted entry and its index,
    the navigable list, the popover flag and its memory flag), reads its
    props, writes the [active] flag of entry objects and splices or pushes
    into the [selected] array it was handed.  Entry objects and string
    arrays are JavaScript references, so both live in a store addressed by
    locations; the navigable list is a list of such locations and two
    lists may share an object.

    A handler is a closure of one render: it reads the props and the state
    of that render (the snapshot) and queues state updates, which React
    commits once the handler is done.  Writes to objects and arrays take
    effect at once.

    The owner's callbacks are recorded as calls; [uniqueId] stands for the
    result of [useUniqueId]; the markup is not modelled. *)

From Stdlib Require Import ZArith Lia.
From stdpp Require Import base option list gmap strings pretty.

#[local] Open Scope Z_scope.

(** ** JavaScript array primitives *)

Section JsArray.
Context {A : Type} `{EqDecision A}.

(** [l.length] *)
Definition js_length (l : list A) : Z := Z.of_nat (length l).

(** [l[i]]: [undefined] outside [0 .. length - 1]. *)
Definition js_get (l : list A) (i : Z) : option A :=
  if decide (0 ≤ i) then l !! Z.to_nat i else None.

(** [l.includes(x)] *)
Definition includes (x : A) (l : list A) : bool := bool_decide (x ∈ l).

(** [l.indexOf(x)]: position of the first occurrence, [-1] when absent. *)
Definition indexOf (x : A) (l : list A) : Z :=
  match list_find (λ y, y = x) l with
  | Some (i, _) => Z.of_nat i
  | None => -1
  end.

(** [l.splice(start, 1)], the array left behind.  A negative [start]
    counts from the end; a [start] past the end removes nothing. *)
Definition splice1 (start : Z) (l : list A) : list A :=
  let n := js_length l in
  let from := if decide (start < 0) then Z.max (n + start) 0 else Z.min start n in
  delete (Z.to_nat from) l.

(** [l.push(x)], the array left behind. *)
Definition push (x : A) (l : list A) : list A := l ++ [x].
End JsArray.

(** ** Data model *)

(** References to entry objects and to string arrays. *)
Definition loc := nat.
Definition aref := nat.

(** An [OptionDescriptor | ActionListItemDescriptor] object.  The component
    reads [value] (options have one, actions do not) and [onAction], writes
    [active], and stamps [id] on its copies; [rest] stands for the fields it
    only copies (label, content, media, ...).  [onAction] is a token naming
    the caller's handler. *)
Record Entry := mkEntry {
  value : option string;
  active : option bool;
  id : option string;
  onAction : option nat;
  rest : string
}.

#[export] Instance Entry_eq_dec : EqDecision Entry.
Proof. solve_decision. Defined.

(** [{...undefined}] *)
Definition emptyEntry : Entry := mkEntry None None None None "".

(** [option.active = b] *)
Definition with_active (b : bool) (e : Entry) : Entry :=
  mkEntry (value e) (Some b) (id e) (onAction e) (rest e).

(** [{...option, id: i}] *)
Definition with_id (i : string) (e : Entry) : Entry :=
  mkEntry (value e) (active e) (Some i) (onAction e) (rest e).

(** Calls the component makes to its collaborators. *)
Inductive Call :=
  | OnSelect (selected : aref)
  | OnAction (handler : nat)
  | PreventDefault.

(** The store shared with the caller, and the calls made so far. *)
Record World := mkWorld {
  objects : gmap loc Entry;
  arrays : gmap aref (list string);
  calls : list Call
}.

Record ComboBoxProps := mkProps {
  uniqueId : string;
  options : list loc;
  selected : aref;
  allowMultiple : bool;
  actionsBefore : option (list loc);
  actionsAfter : option (list loc);
  contentBefore : bool;
  contentAfter : bool;
  emptyState : bool
}.

(** The [useState] and [useToggle] cells. *)
Record State := mkState {
  selectedOption : option loc;
  selectedIndex : Z;
  selectedOptions : aref;
  navigableOptions : list loc;
  popoverActive : bool;
  popoverWasActive : bool
}.

(** State on mount. *)
Definition initialState (p : ComboBoxProps) : State :=
  mkState None (-1) (selected p) [] false false.

(** ** Handlers as state transformers *)

(** A handler runs over the world and the pending state. *)
Definition Config : Type := World * State.
Definition M (A : Type) : Type := Config → A * Config.

#[export] Instance M_ret : MRet M := λ A x c, (x, c).
#[export] Instance M_bind : MBind M := λ A B f m c, let '(x, c') := m c in f x c'.

Definition skip : M unit := mret ().
Definition exec {A} (m : M A) (c : Config) : Config := (m c).2.

Definition getWorld : M World := λ c, (c.1, c).
Definition modifyWorld (f : World → World) : M unit := λ c, ((), (f c.1, c.2)).
Definition modifyState (f : State → State) : M unit := λ c, ((), (c.1, f c.2)).

(** The state setters. *)
Definition setSelectedOption (o : option loc) : M unit :=
  modifyState (λ s, mkState o (selectedIndex s) (selectedOptions s)
                      (navigableOptions s) (popoverActive s) (popoverWasActive s)).
Definition setSelectedIndex (i : Z) : M unit :=
  modifyState (λ s, mkState (selectedOption s) i (selectedOptions s)
                      (navigableOptions s) (popoverActive s) (popoverWasActive s)).
Definition setSelectedOptions (r : aref) : M unit :=
  modifyState (λ s, mkState (selectedOption s) (selectedIndex s) r
                      (navigableOptions s) (popoverActive s) (popoverWasActive s)).
Definition setNavigableOptions (l : list loc) : M unit :=
  modifyState (λ s, mkState (selectedOption s) (selectedIndex s) (selectedOptions s)
                      l (popoverActive s) (popoverWasActive s)).
Definition setPopoverActive (b : bool) : M unit :=
  modifyState (λ s, mkState (selectedOption s) (selectedIndex s) (selectedOptions s)
                      (navigableOptions s) b (popoverWasActive s)).
Definition setPopoverWasActive (b : bool) : M unit :=
  modifyState (λ s, mkState (selectedOption s) (selectedIndex s) (selectedOptions s)
                      (navigableOptions s) (popoverActive s) b).
Definition forcePopoverActiveTrue : M unit := setPopoverActive true.
Definition forcePopoverActiveFalse : M unit := setPopoverActive false.

(** Store operations. *)
Definition writeActive (b : bool) (o : loc) : M unit :=
  modifyWorld (λ w, mkWorld (alter (with_active b) o (objects w)) (arrays w) (calls w)).
Definition readObject (o : loc) : M Entry :=
  w ← getWorld; mret (default emptyEntry (objects w !! o)).
Definition allocObject (e : Entry) : M loc :=
  w ← getWorld;
  let l := fresh (dom (objects w)) in
  modifyWorld (λ w, mkWorld (<[l := e]> (objects w)) (arrays w) (calls w));;
  mret l.
Definition readArray (r : aref) : M (list string) :=
  w ← getWorld; mret (default [] (arrays w !! r)).
Definition updateArray (f : list string → list string) (r : aref) : M unit :=
  modifyWorld (λ w, mkWorld (objects w) (alter f r (arrays w)) (calls w)).
Definition allocArray (l : list string) : M aref :=
  w ← getWorld;
  let r := fresh (dom (arrays w)) in
  modifyWorld (λ w, mkWorld (objects w) (<[r := l]> (arrays w)) (calls w));;
  mret r.
Definition call (c : Call) : M unit :=
  modifyWorld (λ w, mkWorld (objects w) (arrays w) (calls w ++ [c])).

(** [l.forEach(f)] *)
Fixpoint forEach {A} (l : list A) (f : A → M unit) : M unit :=
  match l with
  | [] => skip
  | x :: l' => f x;; forEach l' f
  end.

(** [assignOptionIds]: every entry is copied into a new object that
    carries the positional id. *)
Fixpoint assignOptionIds_from (optionIndex : nat) (options : list loc) (id : string)
    : M (list loc) :=
  match options with
  | [] => mret []
  | option :: options' =>
      e ← readObject option;
      l ← allocObject (with_id (id +:+ "-" +:+ pretty optionIndex) e);
      ls ← assignOptionIds_from (S optionIndex) options' id;
      mret (l :: ls)
  end.
Definition assignOptionIds (options : list loc) (id : string) : M (list loc) :=
  assignOptionIds_from 0 options id.

(** [isOption]: the entry has a [value] and it is not [undefined]. *)
Definition isOption (e : Entry) : bool := bool_decide (is_Some (value e)).

(** [filterForOptions], on the objects the references point to. *)
Definition filterForOptions (h : gmap loc Entry) (mixedArray : list loc) : list loc :=
  filter (λ o, isOption (default emptyEntry (h !! o)) = true) mixedArray.

(** [Key.Enter], the key code of the Enter key. *)
Definition Key_Enter : Z := 13.

Section Render.
(** The props and the state one render's closures capture. *)
Variable p : ComboBoxProps.
Variable s : State.

(** [getActionsWithIds]: the copies of the leading or of the trailing
    actions, sliced off the navigable list. *)
Definition getActionsWithIds (actions : list loc) (before : bool) : list loc :=
  if before then take (length actions) (navigableOptions s)
  else if decide (length actions = 0%nat) then navigableOptions s
  else drop (length (navigableOptions s) - length actions) (navigableOptions s).

Definition handlePopoverClose : M unit :=
  forcePopoverActiveFalse;;
  setPopoverWasActive false.

Definition handlePopoverOpen : M unit :=
  if negb (popoverActive s) && bool_decide (js_length (navigableOptions s) > 0)
  then forcePopoverActiveTrue;; setPopoverWasActive true
  else skip.

Definition visuallyUpdateSelectedOption (newOption oldOption : option loc) : M unit :=
  (match oldOption with Some o => writeActive false o | None => skip end);;
  (match newOption with Some o => writeActive true o | None => skip end).

Definition resetVisuallySelectedOptions : M unit :=
  setSelectedOption None;;
  setSelectedIndex (-1);;
  forEach (navigableOptions s) (writeActive false).

Definition selectOptionAtIndex (newOptionIndex : Z) : M unit :=
  if bool_decide (js_length (navigableOptions s) = 0) then skip
  else
    let newSelectedOption := js_get (navigableOptions s) newOptionIndex in
    visuallyUpdateSelectedOption newSelectedOption (selectedOption s);;
    setSelectedOption newSelectedOption;;
    setSelectedIndex newOptionIndex.

Definition selectNextOption : M unit :=
  if bool_decide (js_length (navigableOptions s) = 0) then skip
  else
    let newIndex :=
      if bool_decide (selectedIndex s + 1 >= js_length (navigableOptions s))
      then 0 else selectedIndex s + 1 in
    selectOptionAtIndex newIndex.

Definition selectPreviousOption : M unit :=
  if bool_decide (js_length (navigableOptions s) = 0) then skip
  else
    let newIndex :=
      if bool_decide (selectedIndex s ≤ 0)
      then js_length (navigableOptions s) - 1 else selectedIndex s - 1 in
    selectOptionAtIndex newIndex.

(** [selected] is an array, hence truthy: [onSelect] is always called. *)
Definition selectOptions (selected : aref) : M unit :=
  call (OnSelect selected);;
  if negb (allowMultiple p)
  then resetVisuallySelectedOptions;;
       forcePopoverActiveFalse;;
       setPopoverWasActive false
  else skip.

(** [newlySelectedOptions] starts as an alias of the [selected] prop:
    [splice] and [push] write into the caller's array. *)
Definition handleSelection (newSelected : string) : M unit :=
  let newlySelectedOptions := selected p in
  current ← readArray (selected p);
  if includes newSelected current then
    now ← readArray newlySelectedOptions;
    updateArray (splice1 (indexOf newSelected now)) newlySelectedOptions;;
    selectOptions newlySelectedOptions
  else if allowMultiple p then
    updateArray (push newSelected) newlySelectedOptions;;
    selectOptions newlySelectedOptions
  else
    newlySelectedOptions ← allocArray [newSelected];
    selectOptions newlySelectedOptions.

Definition handleDownArrow : M unit := selectNextOption.
Definition handleUpArrow : M unit := selectPreviousOption.

Definition handleEnter (keyCode : Z) : M unit :=
  if bool_decide (keyCode ≠ Key_Enter) then skip
  else
    match selectedOption s with
    | Some o =>
        if popoverActive s then
          e ← readObject o;
          if isOption e
          then call PreventDefault;; handleSelection (default "" (value e))
          else
            match onAction e with
            | Some h => call (OnAction h)
            | None => skip
            end
        else skip
    | None => skip
    end.

Definition handleFocus : M unit :=
  forcePopoverActiveTrue;;
  setPopoverWasActive true.

Definition handleBlur : M unit :=
  forcePopoverActiveFalse;;
  setPopoverWasActive false;;
  resetVisuallySelectedOptions.

Definition handleClick : M unit :=
  if negb (popoverActive s) then forcePopoverActiveTrue else skip.

Definition updateIndexOfSelectedOption (newOptions : list loc) : M unit :=
  if match selectedOption s with
     | Some o => includes o newOptions
     | None => false
     end
  then selectOptionAtIndex (indexOf (default 0%nat (selectedOption s)) newOptions)
  else if bool_decide (selectedIndex s > js_length newOptions - 1)
  then resetVisuallySelectedOptions
  else selectOptionAtIndex (selectedIndex s).

(** The four effects, in the order the component declares them. *)
Definition syncSelectedEffect : M unit :=
  if bool_decide (selectedOptions s ≠ selected p)
  then setSelectedOptions (selected p) else skip.

Definition rebuildEffect : M unit :=
  let newNavigableOptions := [] in
  let newNavigableOptions :=
    match actionsBefore p with
    | Some a => newNavigableOptions ++ a
    | None => newNavigableOptions
    end in
  let newNavigableOptions := newNavigableOptions ++ options p in
  let newNavigableOptions :=
    match actionsAfter p with
    | Some a => newNavigableOptions ++ a
    | None => newNavigableOptions
    end in
  newNavigableOptions ← assignOptionIds newNavigableOptions (uniqueId p);
  setNavigableOptions newNavigableOptions.

Definition cursorEffect : M unit :=
  updateIndexOfSelectedOption (navigableOptions s).

Definition visibilityEffect : M unit :=
  if bool_decide (js_length (navigableOptions s) = 0)
     && negb (contentBefore p) && negb (contentAfter p) && negb (emptyState p)
  then forcePopoverActiveFalse
  else if popoverWasActive s && bool_decide (js_length (navigableOptions s) ≠ 0)
  then forcePopoverActiveTrue
  else skip.
End Render.

(** ** Events

    An event runs one handler as a closure of the current render: the
    snapshot it reads is the committed state, and the pending state it
    leaves is committed next. *)

Inductive NavOp :=
  | SelectOptionAtIndex (newOptionIndex : Z)
  | SelectNextOption
  | SelectPreviousOption
  | ResetVisuallySelectedOptions.

Definition navigate (n : NavOp) (c : Config) : Config :=
  match n with
  | SelectOptionAtIndex i => exec (selectOptionAtIndex c.2 i) c
  | SelectNextOption => exec (selectNextOption c.2) c
  | SelectPreviousOption => exec (selectPreviousOption c.2) c
  | ResetVisuallySelectedOptions => exec (resetVisuallySelectedOptions c.2) c
  end.

(** Everything that can happen to a mounted component: the caller renders
    it with new props, an effect runs, or the user acts. *)
Inductive Op :=
  | Navigate (n : NavOp)
  | Render (p : ComboBoxProps)
  | SyncSelectedEffect
  | RebuildEffect
  | CursorEffect
  | VisibilityEffect
  | Select (newSelected : string)
  | Change (selected : aref)
  | Enter (keyCode : Z)
  | Escape
  | Focus
  | Blur
  | Click.

Definition Component : Type := ComboBoxProps * Config.

Definition step (o : Op) (k : Component) : Component :=
  let '(p, c) := k in
  match o with
  | Navigate n => (p, navigate n c)
  | Render p' => (p', c)
  | SyncSelectedEffect => (p, exec (syncSelectedEffect p c.2) c)
  | RebuildEffect => (p, exec (rebuildEffect p) c)
  | CursorEffect => (p, exec (cursorEffect c.2) c)
  | VisibilityEffect => (p, exec (visibilityEffect p c.2) c)
  | Select v => (p, exec (handleSelection p c.2 v) c)
  | Change r => (p, exec (selectOptions p c.2 r) c)
  | Enter k => (p, exec (handleEnter p c.2 k) c)
  | Escape => (p, exec handlePopoverClose c)
  | Focus => (p, exec handleFocus c)
  | Blur => (p, exec (handleBlur c.2) c)
  | Click => (p, exec (handleClick c.2) c)
  end.

Definition run (ops : list Op) (k : Component) : Component :=
  foldl (λ k o, step o k) k ops.

(** A rebuild as the component goes through it when the render brings new
    lists and the content props ([contentBefore], [contentAfter],
    [emptyState]) it already had: new props arrive, the list is rebuilt,
    then the cursor and the popover are brought in line. *)
Definition listChanged (p : ComboBoxProps) : list Op :=
  [Render p; RebuildEffect; CursorEffect; VisibilityEffect].

(** A render with new props, in full.  In the render that receives the
    props, the rebuild effect runs, and so does the visibility effect when
    one of its content props is new ([contentChanged]): it sees the new props
    and the list as it still is.  Both read the same render, and the one
    writes the list while the other writes the popover flag, so the
    visibility effect is run first here.  The next render has the new list:
    the cursor effect and the visibility effect run on it. *)
Definition propsChanged (contentChanged : bool) (p : ComboBoxProps) : list Op :=
  Render p :: (if contentChanged then [VisibilityEffect] else [])
  ++ [RebuildEffect; CursorEffect; VisibilityEffect].

(** Mounting: the initial state, then the effects. *)
Definition mount (p : ComboBoxProps) (w : World) : Component :=
  run [RebuildEffect; CursorEffect; VisibilityEffect] (p, (w, initialState p)).

(** The cursor of the spec: the index and the highlighted entry. *)
Definition cursor (s : State) : Z * option loc := (selectedIndex s, selectedOption s).

(** The entries of the navigable list whose [active] flag is [true]. *)
Definition isActive (h : gmap loc Entry) (o : loc) : bool :=
  bool_decide (h !! o ≫= active = Some true).
Definition activeEntries (c : Config) : list loc :=
  filter (λ o, isActive (objects c.1) o = true) (navigableOptions c.2).

(** ** What the handlers compute *)

(** Clearing or setting the flag of every object of a list. *)
Definition setActiveAll (b : bool) (l : list loc) (h : gmap loc Entry) : gmap loc Entry :=
  foldl (λ h o, alter (with_active b) o h) h l.

(** The two flag writes of [visuallyUpdateSelectedOption]. *)
Definition highlight (newOption oldOption : option loc) (h : gmap loc Entry)
    : gmap loc Entry :=
  let h := match oldOption with Some o => alter (with_active false) o h | None => h end in
  match newOption with Some o => alter (with_active true) o h | None => h end.

(** The state a navigation step leaves: same list, same popover flags. *)
Definition moved (c : Config) (i : Z) : Config :=
  (mkWorld (highlight (js_get (navigableOptions c.2) i) (selectedOption c.2) (objects c.1))
     (arrays c.1) (calls c.1),
   mkState (js_get (navigableOptions c.2) i) i (selectedOptions c.2)
     (navigableOptions c.2) (popoverActive c.2) (popoverWasActive c.2)).

(** The entries a rebuild copies, in order. *)
Definition entriesOf (p : ComboBoxProps) : list loc :=
  default [] (actionsBefore p) ++ options p ++ default [] (actionsAfter p).

(** The [value] of the object a reference points to. *)
Definition valueOf (w : World) (o : loc) : option string := objects w !! o ≫= value.

(** ** Predicates of the statements *)

(** What no cursor operation touches: the list, the popover flags, the
    mirrored selection, the arrays and the calls. *)
Definition sameOutsideCursor (c c' : Config) : Prop :=
  navigableOptions c'.2 = navigableOptions c.2 ∧
  popoverActive c'.2 = popoverActive c.2 ∧
  popoverWasActive c'.2 = popoverWasActive c.2 ∧
  selectedOptions c'.2 = selectedOptions c.2 ∧
  arrays c'.1 = arrays c.1 ∧ calls c'.1 = calls c.1.

(** The invariant navigation keeps: the navigable list has no object twice
    and no entry other than the highlighted one is active. *)
Definition onlyCursorActive (c : Config) : Prop :=
  NoDup (navigableOptions c.2) ∧
  Forall (λ o, isActive (objects c.1) o = true → selectedOption c.2 = Some o)
    (navigableOptions c.2).

#[export] Instance onlyCursorActive_dec c : Decision (onlyCursorActive c).
Proof. unfold onlyCursorActive. apply _. Defined.

(** What one event may do to objects: it writes only objects of the
    committed navigable list or the highlighted one; entries it adds to the
    list are objects that did not exist; and the entry it highlights comes
    from the committed list. *)
Definition writesWithin (c c' : Config) : Prop :=
  (∀ o, o ∈ dom (objects c.1) → o ∉ navigableOptions c.2 → selectedOption c.2 ≠ Some o →
        objects c'.1 !! o = objects c.1 !! o) ∧
  (∀ o, o ∈ navigableOptions c'.2 →
        o ∈ navigableOptions c.2 ∨ o ∉ dom (objects c.1)) ∧
  (∀ o, selectedOption c'.2 = Some o →
        selectedOption c.2 = Some o ∨ o ∈ navigableOptions c.2).

(** [D] is a set of objects the component holds no reference to: they are
    in the store with the fields recorded in [D], and neither the
    navigable list nor the cursor points at one of them.  The caller's
    option and action objects are such a set from the mount on. *)
Definition callerOwned (D : gmap loc Entry) (c : Config) : Prop :=
  D ⊆ objects c.1 ∧
  (∀ o, o ∈ navigableOptions c.2 → o ∉ dom D) ∧
  (∀ o, selectedOption c.2 = Some o → o ∉ dom D).

(** No object of [D] is active. *)
Definition noneActive (D : gmap loc Entry) : Prop :=
  map_Forall (λ _ e, active e ≠ Some true) D.

(** The props list objects of [D] only. *)
Definition listsOnly (D : gmap loc Entry) (p : ComboBoxProps) : Prop :=
  Forall (λ l, l ∈ dom D) (entriesOf p).

(** So do the props of every render. *)
Definition rendersFrom (D : gmap loc Entry) (ops : list Op) : Prop :=
  Forall (λ o, match o with Render p => listsOnly D p | _ => True end) ops.

#[export] Instance rendersFrom_dec D ops : Decision (rendersFrom D ops).
Proof. apply Forall_dec. intros []; apply _. Defined.

(** ** Concrete configurations *)

(** A store with three options and a selection, used to run the component. *)
Definition optionA : Entry := mkEntry (Some "A") None None None "Alpha".
Definition optionB : Entry := mkEntry (Some "B") None None None "Beta".
Definition optionC : Entry := mkEntry (Some "C") None None None "Gamma".
Definition optionX : Entry := mkEntry (Some "X") None None None "Xi".

Definition demoWorld (sel : list string) : World :=
  mkWorld
    (list_to_map [(0%nat, optionA); (1%nat, optionB); (2%nat, optionC); (3%nat, optionX)])
    (list_to_map [(0%nat, sel)]) [].

Definition demoProps (multi : bool) (opts : list loc) : ComboBoxProps :=
  mkProps "ComboBox1" opts 0%nat multi None None false false false.

(** A store whose second option the caller has marked active. *)
Definition optionBMarked : Entry := mkEntry (Some "B") (Some true) None None "Beta".

Definition markedWorld : World :=
  mkWorld (list_to_map [(0%nat, optionA); (1%nat, optionBMarked)])
    (list_to_map [(0%nat, [])]) [].

(** Props with an empty option list and an empty-state placeholder. *)
Definition emptyProps (placeholder : bool) : ComboBoxProps :=
  mkProps "ComboBox1" [] 0%nat false None None false false placeholder.

(** Three options, mounted: the list is built and nothing is highlighted. *)
Definition demoMounted : Config := (mount (demoProps false [0; 1; 2]%nat) (demoWorld [])).2.

(** ** What the markup is handed

    The lists the component passes to its renderers: the leading actions
    ([ActionList items], only when [actionsBefore] is given and non-empty),
    the options ([OptionList options], only when [options] is non-empty)
    and the trailing actions. *)

Section Markup.
Variable p : ComboBoxProps.
Variable w : World.
Variable s : State.

Definition actionsBeforeItems : list loc :=
  match actionsBefore p with
  | Some a => if bool_decide (0 < length a)%nat then getActionsWithIds s a true else []
  | None => []
  end.

Definition actionsAfterItems : list loc :=
  match actionsAfter p with
  | Some a => if bool_decide (0 < length a)%nat then getActionsWithIds s a false else []
  | None => []
  end.

Definition optionItems : list loc :=
  if bool_decide (0 < length (options p))%nat
  then filterForOptions (objects w) (navigableOptions s) else [].

(** [selectedOptionId], the id the context names as the current entry. *)
Definition selectedOptionId : option string :=
  match selectedOption s with
  | Some _ => Some (uniqueId p +:+ "-" +:+ pretty (selectedIndex s))
  | None => None
  end.
End Markup.

(** ** Further predicates and event sequences *)

(** The cursor is on the list: its index is [-1] or a position of the
    navigable list, and the highlighted entry is the entry at that index
    (none at [-1]). *)
Definition cursorOnList (c : Config) : Prop :=
  -1 ≤ selectedIndex c.2 < js_length (navigableOptions c.2) ∧
  selectedOption c.2 = js_get (navigableOptions c.2) (selectedIndex c.2).

#[export] Instance cursorOnList_dec c : Decision (cursorOnList c).
Proof. unfold cursorOnList. apply _. Defined.

(** The events after which the cursor is on the list again at once: all
    but the rebuild itself (the cursor effect follows it) and a jump to an
    index outside the list. *)
Definition settles (o : Op) (c : Config) : Prop :=
  match o with
  | RebuildEffect => False
  | Navigate (SelectOptionAtIndex i) => -1 ≤ i < js_length (navigableOptions c.2)
  | _ => True
  end.

(** Enter commits: the key is Enter, the popover is open and the
    highlighted object is an option. *)
Definition commitsOnEnter (s : State) (w : World) (keyCode : Z) : bool :=
  bool_decide (keyCode = Key_Enter) && popoverActive s &&
  match selectedOption s with
  | Some o => isOption (default emptyEntry (objects w !! o))
  | None => false
  end.

(** The handler Enter invokes when it does not commit: the one of the
    highlighted action, if the popover is open and the action has one. *)
Definition actionOnEnter (s : State) (w : World) (keyCode : Z) : list Call :=
  if bool_decide (keyCode = Key_Enter) && popoverActive s then
    match selectedOption s with
    | Some o =>
        let e := default emptyEntry (objects w !! o) in
        if isOption e then []
        else match onAction e with Some h => [OnAction h] | None => [] end
    | None => []
    end
  else [].

(** Every entry of the navigable list carries the id of its position. *)
Definition idsPositional (p : ComboBoxProps) (c : Config) : Prop :=
  ∀ (j : nat) l, navigableOptions c.2 !! j = Some l →
    objects c.1 !! l ≫= id = Some (uniqueId p +:+ "-" +:+ pretty j).

(** The events that keep the props and the list: no render, no rebuild,
    and no jump of the cursor to an arbitrary index (the handlers only
    step by arrows). *)
Definition keepsList (o : Op) : Prop :=
  match o with
  | Render _ | RebuildEffect | Navigate (SelectOptionAtIndex _) => False
  | _ => True
  end.

#[export] Instance keepsList_dec o : Decision (keepsList o).
Proof. destruct o as [[]| | | | | | | | | | | |]; apply _. Defined.

(** A run of list changes, one per props. *)
Definition listChanges (ps : list ComboBoxProps) : list Op :=
  ps ≫= listChanged.

(** The store holds an object for every entry the props list. *)
Definition entriesExist (w : World) (p : ComboBoxProps) : Prop :=
  Forall (λ o, o ∈ dom (objects w)) (entriesOf p).

(** The entries are typed as the props declare them: options carry a
    [value], actions do not. *)
Definition entriesTyped (w : World) (p : ComboBoxProps) : Prop :=
  Forall (λ o, isOption (default emptyEntry (objects w !! o)) = true) (options p) ∧
  Forall (λ o, isOption (default emptyEntry (objects w !! o)) = false)
    (default [] (actionsBefore p) ++ default [] (actionsAfter p)).

(** Props with leading and trailing actions, and a store that holds them. *)
Definition actionNew : Entry := mkEntry None None None (Some 7%nat) "New".
Definition actionMore : Entry := mkEntry None None None None "More".

Definition actionWorld : World :=
  mkWorld
    (list_to_map [(0%nat, optionA); (1%nat, optionB); (2%nat, actionNew); (3%nat, actionMore)])
    (list_to_map [(0%nat, ["A"])]) [].

Definition actionProps : ComboBoxProps :=
  mkProps "ComboBox1" [0; 1]%nat 0%nat true (Some [2%nat]) (Some [3%nat]) false false false.

(** ** The monad's equations *)

Lemma exec_bind {A B} (m : M A) (f : A → M B) c :
  exec (m ≫= f) c = exec (f (m c).1) (m c).2.
Proof. unfold exec, mbind, M_bind. by destruct (m c). Qed.

Lemma run_bind {A B} (m : M A) (f : A → M B) c :
  (m ≫= f) c = f (m c).1 (m c).2.
Proof. unfold mbind, M_bind. by destruct (m c). Qed.

Lemma exec_seq {A B} (m : M A) (k : M B) c :
  exec (m;; k) c = exec k (exec m c).
Proof. by rewrite exec_bind. Qed.

Lemma forEach_writeActive b l c :
  forEach l (writeActive b) c
  = ((), (mkWorld (setActiveAll b l (objects c.1)) (arrays c.1) (calls c.1), c.2)).
Proof.
  revert c. induction l as [|o l IH]; intros [[h a k] st]; simpl.
  - reflexivity.
  - rewrite run_bind. simpl. rewrite IH. reflexivity.
Qed.

Lemma setActiveAll_lookup b l h o :
  setActiveAll b l h !! o
  = if decide (o ∈ l) then with_active b <$> h !! o else h !! o.
Proof.
  revert h. induction l as [|x l IH]; intros h; simpl.
  - reflexivity.
  - unfold setActiveAll in *. simpl. rewrite IH.
    destruct (decide (x = o)) as [->|Hne].
    + rewrite lookup_alter_eq.
      rewrite (decide_True _ _ (list_elem_of_here o l)).
      destruct (decide (o ∈ l)); [|reflexivity].
      destruct (h !! o); reflexivity.
    + rewrite lookup_alter_ne by done.
      destruct (decide (o ∈ l)) as [Hin|Hnin].
      * by rewrite decide_True by (by apply list_elem_of_further).
      * rewrite decide_False; [done|].
        intros [->|?]%elem_of_cons; done.
Qed.

Lemma resetVisuallySelectedOptions_run s c :
  exec (resetVisuallySelectedOptions s) c
  = (mkWorld (setActiveAll false (navigableOptions s) (objects c.1)) (arrays c.1) (calls c.1),
     mkState None (-1) (selectedOptions c.2) (navigableOptions c.2)
       (popoverActive c.2) (popoverWasActive c.2)).
Proof.
  destruct c as [[h a k] st]. unfold resetVisuallySelectedOptions, exec.
  rewrite !run_bind. simpl. rewrite forEach_writeActive. reflexivity.
Qed.

(** *** [indexOf], [includes] and [splice] *)

Section JsArrayFacts.
Context {A : Type} `{EqDecision A}.
Implicit Types (x : A) (l : list A).

Lemma includes_true x l : includes x l = true ↔ x ∈ l.
Proof. unfold includes. by rewrite bool_decide_eq_true. Qed.

Lemma includes_false x l : includes x l = false ↔ x ∉ l.
Proof. unfold includes. by rewrite bool_decide_eq_false. Qed.

(** [indexOf] finds the first occurrence. *)
Lemma indexOf_elem_of x l :
  x ∈ l →
  ∃ i : nat, indexOf x l = Z.of_nat i ∧ l !! i = Some x ∧ x ∉ take i l.
Proof.
  intros Hin. unfold indexOf.
  destruct (list_find_elem_of (λ y, y = x) l x Hin eq_refl) as [[i y] Hfind].
  rewrite Hfind. apply list_find_Some in Hfind as (Hi & -> & Hfirst).
  exists i. split_and!; [done..|].
  intros (j & Hj & Hlt)%elem_of_take. by eapply Hfirst.
Qed.

Lemma indexOf_not_elem_of x l : x ∉ l → indexOf x l = -1.
Proof.
  intros Hnin. unfold indexOf.
  destruct (list_find _ l) as [[i y]|] eqn:Hfind; [|done].
  apply list_find_Some in Hfind as (Hi & -> & _).
  by apply list_elem_of_lookup_2 in Hi.
Qed.

Lemma indexOf_range x l : -1 ≤ indexOf x l < js_length l.
Proof.
  destruct (decide (x ∈ l)) as [Hin|Hnin].
  - destruct (indexOf_elem_of x l Hin) as (i & -> & Hi & _).
    apply lookup_lt_Some in Hi. unfold js_length. lia.
  - rewrite indexOf_not_elem_of by done. unfold js_length. lia.
Qed.

(** In a list without repetition the position of an element is its index. *)
Lemma indexOf_NoDup x l (i : nat) :
  NoDup l → l !! i = Some x → indexOf x l = Z.of_nat i.
Proof.
  intros Hnd Hi.
  destruct (indexOf_elem_of x l) as (j & -> & Hj & _).
  { by eapply list_elem_of_lookup_2. }
  f_equal. by eapply NoDup_lookup.
Qed.

(** Splicing one element out at an index of the array. *)
Lemma splice1_lookup l (i : nat) x :
  l !! i = Some x →
  splice1 (Z.of_nat i) l = take i l ++ drop (S i) l ∧ l = take i l ++ x :: drop (S i) l.
Proof.
  intros Hi. pose proof (lookup_lt_Some _ _ _ Hi) as Hlt.
  unfold splice1, js_length. rewrite decide_False by lia.
  replace (Z.to_nat (Z.min (Z.of_nat i) (Z.of_nat (length l)))) with i by lia.
  split; [apply delete_take_drop|]. by rewrite take_drop_middle.
Qed.
End JsArrayFacts.

(** ** Selection commit *)

Lemma selectOptions_run p s r c :
  exec (selectOptions p s r) c
  = if allowMultiple p
    then (mkWorld (objects c.1) (arrays c.1) (calls c.1 ++ [OnSelect r]), c.2)
    else (mkWorld (setActiveAll false (navigableOptions s) (objects c.1)) (arrays c.1)
            (calls c.1 ++ [OnSelect r]),
          mkState None (-1) (selectedOptions c.2) (navigableOptions c.2) false false).
Proof.
  destruct c as [[h a k] st]. unfold selectOptions.
  rewrite exec_seq. destruct (allowMultiple p); simpl.
  - by destruct st.
  - by rewrite !exec_seq, resetVisuallySelectedOptions_run.
Qed.

(** C3.  A commit through [selectOptions] calls the owner once with the
    array it was given.  Under single-select ([allowMultiple] false) it
    leaves the cursor at [(-1, none)] and the popover closed; under
    multi-select it leaves the whole state (cursor index, highlighted
    entry, popover flags) and every entry object as they were. *)
Theorem selectOptions_cursor_and_popover p s r c :
  let c' := exec (selectOptions p s r) c in
  calls c'.1 = calls c.1 ++ [OnSelect r] ∧
  if allowMultiple p
  then c'.2 = c.2 ∧ objects c'.1 = objects c.1
  else cursor c'.2 = (-1, None) ∧ popoverActive c'.2 = false.
Proof.
  simpl. rewrite selectOptions_run. by destruct (allowMultiple p).
Qed.

(** What [handleSelection] does to the store before it hands over to
    [selectOptions], by branch. *)
Lemma handleSelection_run p s v c sel :
  arrays c.1 !! selected p = Some sel →
  exec (handleSelection p s v) c
  = if includes v sel then
      exec (selectOptions p s (selected p))
        (mkWorld (objects c.1)
           (alter (splice1 (indexOf v sel)) (selected p) (arrays c.1)) (calls c.1), c.2)
    else if allowMultiple p then
      exec (selectOptions p s (selected p))
        (mkWorld (objects c.1) (alter (push v) (selected p) (arrays c.1)) (calls c.1), c.2)
    else
      exec (selectOptions p s (fresh (dom (arrays c.1))))
        (mkWorld (objects c.1) (<[fresh (dom (arrays c.1)) := [v]]> (arrays c.1)) (calls c.1),
         c.2).
Proof.
  destruct c as [[h a k] st]. simpl. intros Hsel.
  unfold handleSelection. rewrite exec_bind. simpl. rewrite Hsel. simpl.
  destruct (includes v sel).
  - rewrite exec_bind. simpl. rewrite Hsel. simpl. by rewrite exec_seq.
  - destruct (allowMultiple p).
    + by rewrite exec_seq.
    + by rewrite exec_bind.
Qed.

Lemma selectOptions_arrays p s r c :
  arrays (exec (selectOptions p s r) c).1 = arrays c.1.
Proof. rewrite selectOptions_run. by destruct (allowMultiple p). Qed.

Lemma selectOptions_calls p s r c :
  calls (exec (selectOptions p s r) c).1 = calls c.1 ++ [OnSelect r].
Proof. rewrite selectOptions_run. by destruct (allowMultiple p). Qed.

(** C1.  A commit of [v] calls the owner's [onSelect] once, with an array
    that holds: the current selection with the first occurrence of [v]
    taken out and the rest in order when [v] is in it (so [v] is gone when
    the selection has no repetition); the current selection followed by
    [v] when [v] is absent and multi-select is on; exactly [[v]] when [v]
    is absent and multi-select is off. *)
Theorem handleSelection_proposes p s v c sel :
  arrays c.1 !! selected p = Some sel →
  let c' := exec (handleSelection p s v) c in
  ∃ r result,
    calls c'.1 = calls c.1 ++ [OnSelect r] ∧
    arrays c'.1 !! r = Some result ∧
    (v ∈ sel →
       (∃ l1 l2, sel = l1 ++ v :: l2 ∧ (v ∉ l1) ∧ result = l1 ++ l2) ∧
       (NoDup sel → v ∉ result)) ∧
    (v ∉ sel → allowMultiple p = true → result = sel ++ [v]) ∧
    (v ∉ sel → allowMultiple p = false → result = [v]).
Proof.
  intros Hsel. simpl. rewrite (handleSelection_run _ _ _ _ _ Hsel).
  destruct (includes v sel) eqn:Hinc; [|destruct (allowMultiple p) eqn:Hmulti].
  - apply includes_true in Hinc.
    destruct (indexOf_elem_of v sel Hinc) as (i & Hidx & Hi & Hfirst).
    destruct (splice1_lookup sel i v Hi) as [Hsplice Hsplit].
    exists (selected p), (take i sel ++ drop (S i) sel).
    rewrite selectOptions_calls, selectOptions_arrays. simpl.
    rewrite lookup_alter_eq, Hsel, Hidx. simpl. rewrite Hsplice.
    split_and!; [done | done | | done | done].
    intros _. split; [by eauto|].
    intros Hnd. rewrite Hsplit in Hnd.
    apply NoDup_app in Hnd as (_ & Hl1 & [Hl2 _]%NoDup_cons).
    intros [?|?]%elem_of_app; [done|done].
  - apply includes_false in Hinc.
    exists (selected p), (sel ++ [v]).
    rewrite selectOptions_calls, selectOptions_arrays. simpl.
    rewrite lookup_alter_eq, Hsel. done.
  - apply includes_false in Hinc.
    exists (fresh (dom (arrays c.1))), [v].
    rewrite selectOptions_calls, selectOptions_arrays. simpl.
    rewrite lookup_insert_eq. done.
Qed.

Lemma handleSelection_proposes_witness :
  let p := demoProps true [0; 1; 2]%nat in
  let c := (demoWorld ["A"], initialState p) in
  arrays c.1 !! selected p = Some ["A"] ∧
  ∃ r result,
    calls (exec (handleSelection p c.2 "B") c).1 = calls c.1 ++ [OnSelect r] ∧
    arrays (exec (handleSelection p c.2 "B") c).1 !! r = Some result ∧
    ("B" ∈ ["A"] →
       (∃ l1 l2, ["A"] = l1 ++ "B" :: l2 ∧ ("B" ∉ l1) ∧ result = l1 ++ l2) ∧
       (NoDup ["A"] → "B" ∉ result)) ∧
    ("B" ∉ ["A"] → allowMultiple p = true → result = ["A"] ++ ["B"]) ∧
    ("B" ∉ ["A"] → allowMultiple p = false → result = ["B"]).
Proof.
  split; [reflexivity|].
  apply (handleSelection_proposes (demoProps true [0; 1; 2]%nat)
           (initialState (demoProps true [0; 1; 2]%nat)) "B"
           (demoWorld ["A"], initialState (demoProps true [0; 1; 2]%nat)) ["A"]).
  reflexivity.
Defined.

(** C2.  Whenever the committed value is already selected, or multi-select
    is on, [handleSelection] writes into the very array the caller passed
    as [selected]: after the commit that array has a different length, and
    it is this same array that [onSelect] receives.  Only the single-select
    replacement builds a new array. *)
Theorem handleSelection_writes_callers_array p s v c sel :
  arrays c.1 !! selected p = Some sel →
  v ∈ sel ∨ allowMultiple p = true →
  let c' := exec (handleSelection p s v) c in
  ∃ changed,
    arrays c'.1 !! selected p = Some changed ∧
    length changed ≠ length sel ∧
    calls c'.1 = calls c.1 ++ [OnSelect (selected p)].
Proof.
  intros Hsel Hbranch. simpl. rewrite (handleSelection_run _ _ _ _ _ Hsel).
  destruct (includes v sel) eqn:Hinc.
  - apply includes_true in Hinc.
    destruct (indexOf_elem_of v sel Hinc) as (i & Hidx & Hi & _).
    destruct (splice1_lookup sel i v Hi) as [Hsplice Hsplit].
    exists (take i sel ++ drop (S i) sel).
    rewrite selectOptions_calls, selectOptions_arrays. simpl.
    rewrite lookup_alter_eq, Hsel, Hidx. simpl. rewrite Hsplice.
    split_and!; [done | | done].
    rewrite Hsplit at 3. rewrite !length_app. simpl. lia.
  - apply includes_false in Hinc. destruct Hbranch as [?|Hmulti]; [done|].
    rewrite Hmulti. exists (sel ++ [v]).
    rewrite selectOptions_calls, selectOptions_arrays. simpl.
    rewrite lookup_alter_eq, Hsel. simpl.
    split_and!; [done | | done].
    rewrite length_app. simpl. lia.
Qed.

Lemma handleSelection_writes_callers_array_witness :
  let p := demoProps true [0; 1; 2]%nat in
  let c := (demoWorld ["A"], initialState p) in
  arrays c.1 !! selected p = Some ["A"] ∧
  ("B" ∈ ["A"] ∨ allowMultiple p = true) ∧
  ∃ changed,
    arrays (exec (handleSelection p c.2 "B") c).1 !! selected p = Some changed ∧
    length changed ≠ length ["A"] ∧
    calls (exec (handleSelection p c.2 "B") c).1 = calls c.1 ++ [OnSelect (selected p)].
Proof.
  split; [reflexivity|]. split; [right; reflexivity|].
  apply (handleSelection_writes_callers_array (demoProps true [0; 1; 2]%nat)
           (initialState (demoProps true [0; 1; 2]%nat)) "B"
           (demoWorld ["A"], initialState (demoProps true [0; 1; 2]%nat)) ["A"]).
  - reflexivity.
  - right; reflexivity.
Defined.

(** The caller's array before and after two commits under multi-select:
    it is rewritten in place each time. *)
Example handleSelection_in_place :
  let p := demoProps true [0; 1; 2]%nat in
  let c0 := (demoWorld ["A"], initialState p) in
  let c1 := exec (handleSelection p c0.2 "B") c0 in
  let c2 := exec (handleSelection p c1.2 "A") c1 in
  arrays c0.1 !! selected p = Some ["A"] ∧
  arrays c1.1 !! selected p = Some ["A"; "B"] ∧
  arrays c2.1 !! selected p = Some ["B"] ∧
  calls c2.1 = [OnSelect (selected p); OnSelect (selected p)].
Proof. vm_compute. done. Qed.

(** ** Navigation *)

Lemma visuallyUpdateSelectedOption_run newOption oldOption c :
  exec (visuallyUpdateSelectedOption newOption oldOption) c
  = (mkWorld (highlight newOption oldOption (objects c.1)) (arrays c.1) (calls c.1), c.2).
Proof.
  destruct c as [[h a k] st]. unfold visuallyUpdateSelectedOption, highlight.
  rewrite exec_seq. by destruct oldOption, newOption.
Qed.

Lemma js_length_zero {A} (l : list A) : js_length l = 0 ↔ l = [].
Proof. unfold js_length. destruct l; simpl; split; intros; (done || lia). Qed.

Lemma selectOptionAtIndex_run s i c :
  exec (selectOptionAtIndex s i) c
  = if decide (navigableOptions s = []) then c
    else (mkWorld (highlight (js_get (navigableOptions s) i) (selectedOption s) (objects c.1))
            (arrays c.1) (calls c.1),
          mkState (js_get (navigableOptions s) i) i (selectedOptions c.2)
            (navigableOptions c.2) (popoverActive c.2) (popoverWasActive c.2)).
Proof.
  unfold selectOptionAtIndex. case_bool_decide as Hlen.
  - apply js_length_zero in Hlen. rewrite decide_True by done. by destruct c.
  - rewrite js_length_zero in Hlen. rewrite decide_False by done.
    rewrite !exec_seq, visuallyUpdateSelectedOption_run. by destruct c as [[h a k] st].
Qed.

Lemma selectNextOption_run s c :
  exec (selectNextOption s) c
  = if decide (navigableOptions s = []) then c
    else exec (selectOptionAtIndex s
                 (if decide (selectedIndex s + 1 >= js_length (navigableOptions s))
                  then 0 else selectedIndex s + 1)) c.
Proof.
  unfold selectNextOption. case_bool_decide as Hlen.
  - apply js_length_zero in Hlen. rewrite decide_True by done. by destruct c.
  - rewrite js_length_zero in Hlen. rewrite decide_False by done.
    by case_bool_decide; [rewrite decide_True by done|rewrite decide_False by done].
Qed.

Lemma selectPreviousOption_run s c :
  exec (selectPreviousOption s) c
  = if decide (navigableOptions s = []) then c
    else exec (selectOptionAtIndex s
                 (if decide (selectedIndex s ≤ 0)
                  then js_length (navigableOptions s) - 1 else selectedIndex s - 1)) c.
Proof.
  unfold selectPreviousOption. case_bool_decide as Hlen.
  - apply js_length_zero in Hlen. rewrite decide_True by done. by destruct c.
  - rewrite js_length_zero in Hlen. rewrite decide_False by done.
    by case_bool_decide; [rewrite decide_True by done|rewrite decide_False by done].
Qed.

(** C6.  On an empty navigable list [selectNextOption] and
    [selectPreviousOption] return the configuration they were given.  On a
    list of length [n > 0], [selectNextOption] moves a cursor index [i] in
    [-1 .. n-1] to [(i + 1) mod n] (so to [0] from [-1]) and
    [selectPreviousOption] moves it to [n - 1] when [i ≤ 0] and to [i - 1]
    otherwise; either way the highlighted entry becomes the entry at the
    new index. *)
Theorem navigation_wraps s c :
  let l := navigableOptions s in
  let n := js_length l in
  let i := selectedIndex s in
  let next := (exec (selectNextOption s) c).2 in
  let prev := (exec (selectPreviousOption s) c).2 in
  (l = [] → exec (selectNextOption s) c = c ∧ exec (selectPreviousOption s) c = c) ∧
  (l ≠ [] →
     (-1 ≤ i < n → cursor next = ((i + 1) mod n, js_get l ((i + 1) mod n))) ∧
     (i = -1 → cursor next = (0, js_get l 0)) ∧
     (i ≤ 0 → cursor prev = (n - 1, js_get l (n - 1))) ∧
     (0 < i → cursor prev = (i - 1, js_get l (i - 1)))).
Proof.
  simpl. rewrite selectNextOption_run, selectPreviousOption_run, !selectOptionAtIndex_run.
  destruct (decide (navigableOptions s = [])) as [Hnil|Hne]; (split; [done|]); [done|].
  intros _. unfold cursor. simpl.
  assert (js_length (navigableOptions s) > 0) as Hpos.
  { destruct (navigableOptions s); [done|]. unfold js_length. simpl. lia. }
  split_and!.
  - intros Hi. case_decide as Hwrap.
    + replace (selectedIndex s + 1) with (js_length (navigableOptions s)) by lia.
      by rewrite Z_mod_same_full.
    + by rewrite Z.mod_small by lia.
  - intros Hi. rewrite Hi. by rewrite decide_False by lia.
  - intros Hi. by rewrite !(decide_True (P := selectedIndex s ≤ 0)) by done.
  - intros Hi. by rewrite !(decide_False (P := selectedIndex s ≤ 0)) by lia.
Qed.

Lemma navigation_wraps_witness :
  navigableOptions demoMounted.2 ≠ [] ∧
  -1 ≤ selectedIndex demoMounted.2 < js_length (navigableOptions demoMounted.2) ∧
  cursor (exec (selectNextOption demoMounted.2) demoMounted).2 = (0, Some 4%nat).
Proof.
  split; [done|]. split; [compute_done|].
  destruct (navigation_wraps demoMounted.2 demoMounted) as [_ Hnonempty].
  destruct Hnonempty as (Hnext & _); [done|].
  rewrite Hnext; [reflexivity | compute_done].
Defined.

Lemma navigate_next c :
  navigableOptions c.2 ≠ [] →
  navigate SelectNextOption c
  = moved c (if decide (selectedIndex c.2 + 1 >= js_length (navigableOptions c.2))
             then 0 else selectedIndex c.2 + 1).
Proof.
  intros Hne. simpl. rewrite selectNextOption_run, selectOptionAtIndex_run.
  by rewrite !decide_False by done.
Qed.

Lemma navigate_previous c :
  navigableOptions c.2 ≠ [] →
  navigate SelectPreviousOption c
  = moved c (if decide (selectedIndex c.2 ≤ 0)
             then js_length (navigableOptions c.2) - 1 else selectedIndex c.2 - 1).
Proof.
  intros Hne. simpl. rewrite selectPreviousOption_run, selectOptionAtIndex_run.
  by rewrite !decide_False by done.
Qed.

(** C5, as the code has it.  On an empty list the pair next-then-previous
    changes nothing.  From a cursor on an entry of the list (index in
    [0 .. n-1], highlighted entry the one at that index) it restores the
    cursor.  From index [-1] on a non-empty list it does not: the cursor
    ends on the last entry. *)
Theorem previous_after_next c :
  let l := navigableOptions c.2 in
  let i := selectedIndex c.2 in
  let c' := navigate SelectPreviousOption (navigate SelectNextOption c) in
  (l = [] → c' = c) ∧
  (0 ≤ i < js_length l → selectedOption c.2 = js_get l i → cursor c'.2 = cursor c.2) ∧
  (l ≠ [] → i = -1 → cursor c'.2 = (js_length l - 1, js_get l (js_length l - 1))).
Proof.
  cbv zeta. split_and!.
  - intros Hnil. simpl.
    rewrite (selectNextOption_run c.2 c), decide_True by done.
    by rewrite selectPreviousOption_run, decide_True by done.
  - intros Hi Hentry.
    assert (navigableOptions c.2 ≠ []) as Hne.
    { intros Hnil. rewrite Hnil in Hi. unfold js_length in Hi. simpl in Hi. lia. }
    rewrite (navigate_next c Hne), navigate_previous by done.
    unfold cursor. simpl. rewrite Hentry.
    destruct (decide (selectedIndex c.2 + 1 >= _)) as [Hwrap|Hstep].
    + rewrite decide_True by done.
      by replace (js_length (navigableOptions c.2) - 1) with (selectedIndex c.2) by lia.
    + rewrite decide_False by lia.
      by replace (selectedIndex c.2 + 1 - 1) with (selectedIndex c.2) by lia.
  - intros Hne Hi.
    assert (js_length (navigableOptions c.2) > 0) as Hpos.
    { destruct (navigableOptions c.2); [done|]. unfold js_length. simpl. lia. }
    rewrite (navigate_next c Hne), navigate_previous by done.
    unfold cursor. simpl. rewrite Hi.
    rewrite (decide_False (P := -1 + 1 >= _)) by lia.
    by rewrite decide_True by done.
Qed.

Lemma previous_after_next_witness :
  0 ≤ selectedIndex (navigate SelectNextOption demoMounted).2
    < js_length (navigableOptions (navigate SelectNextOption demoMounted).2) ∧
  cursor (navigate SelectPreviousOption
            (navigate SelectNextOption (navigate SelectNextOption demoMounted))).2
  = (0, Some 4%nat).
Proof.
  split; [compute_done|].
  destruct (previous_after_next (navigate SelectNextOption demoMounted)) as (_ & Hback & _).
  rewrite Hback; [reflexivity | compute_done | reflexivity].
Defined.

(** C5, as the claim has it, fails at the initial cursor: on the three
    mounted options, next-then-previous from [(-1, none)] ends on the last
    entry. *)
Lemma previous_after_next_from_initial :
  let c := demoMounted in
  let c' := navigate SelectPreviousOption (navigate SelectNextOption c) in
  navigableOptions c.2 = [4; 5; 6]%nat ∧
  cursor c.2 = (-1, None) ∧
  cursor c'.2 = (2, Some 6%nat) ∧
  cursor c'.2 ≠ cursor c.2.
Proof. vm_compute. split_and!; done. Qed.

(** ** Rebuilding the navigable list *)

(** [assignOptionIds] allocates one new object per entry and touches
    nothing else: the copies are distinct, none of them existed before, and
    every object that existed before is as it was. *)
Lemma assignOptionIds_from_spec k opts i c :
  let r := assignOptionIds_from k opts i c in
  r.2.2 = c.2 ∧ arrays r.2.1 = arrays c.1 ∧ calls r.2.1 = calls c.1 ∧
  length r.1 = length opts ∧ NoDup r.1 ∧
  (∀ l, l ∈ r.1 → l ∉ dom (objects c.1)) ∧
  dom (objects r.2.1) = dom (objects c.1) ∪ list_to_set r.1 ∧
  (∀ o, o ∉ r.1 → objects r.2.1 !! o = objects c.1 !! o).
Proof.
  revert k c. induction opts as [|o opts IH]; intros k [[h a cs] st].
  - simpl. split_and!; try done; first [apply NoDup_nil_2 | set_solver].
  - cbn [assignOptionIds_from]. rewrite !run_bind. simpl.
    set (e := with_id _ _).
    set (l0 := fresh (dom h)).
    specialize (IH (S k) (mkWorld (<[l0 := e]> h) a cs, st)).
    simpl in IH. destruct IH as (Hst & Harr & Hcalls & Hlen & Hnd & Hfresh & Hdom & Hold).
    assert (l0 ∉ dom h) as Hl0 by apply is_fresh.
    split_and!; try done.
    + by rewrite Hlen.
    + apply NoDup_cons. split; [|done].
      intros Hin%Hfresh. apply Hin. set_solver.
    + intros l [->|Hin]%elem_of_cons; [done|].
      apply Hfresh in Hin. set_solver.
    + rewrite Hdom. set_solver.
    + intros o' Hnin. apply not_elem_of_cons in Hnin as [Hne Hnin].
      rewrite Hold by done. by rewrite lookup_insert_ne.
Qed.

Lemma rebuildEffect_run p c :
  exec (rebuildEffect p) c
  = let r := assignOptionIds (entriesOf p) (uniqueId p) c in
    (r.2.1, mkState (selectedOption r.2.2) (selectedIndex r.2.2) (selectedOptions r.2.2)
              r.1 (popoverActive r.2.2) (popoverWasActive r.2.2)).
Proof.
  unfold rebuildEffect, entriesOf. rewrite exec_bind.
  replace (match actionsAfter p with
           | Some a => (match actionsBefore p with Some a0 => [] ++ a0 | None => [] end
                        ++ options p) ++ a
           | None => match actionsBefore p with Some a0 => [] ++ a0 | None => [] end
                     ++ options p
           end)
    with (default [] (actionsBefore p) ++ options p ++ default [] (actionsAfter p)).
  - by destruct (assignOptionIds _ _ c) as [ls [w st]].
  - destruct (actionsBefore p), (actionsAfter p); simpl; by rewrite ?app_nil_r, ?app_assoc.
Qed.

(** A rebuilt list has one new object per entry of the props; the state
    keeps its cursor and popover flags, and old objects keep their fields. *)
Lemma rebuildEffect_spec p c :
  let c' := exec (rebuildEffect p) c in
  arrays c'.1 = arrays c.1 ∧ calls c'.1 = calls c.1 ∧
  cursor c'.2 = cursor c.2 ∧ selectedOptions c'.2 = selectedOptions c.2 ∧
  popoverActive c'.2 = popoverActive c.2 ∧ popoverWasActive c'.2 = popoverWasActive c.2 ∧
  length (navigableOptions c'.2) = length (entriesOf p) ∧
  NoDup (navigableOptions c'.2) ∧
  (∀ l, l ∈ navigableOptions c'.2 → l ∉ dom (objects c.1)) ∧
  dom (objects c'.1) = dom (objects c.1) ∪ list_to_set (navigableOptions c'.2) ∧
  (∀ o, o ∉ navigableOptions c'.2 → objects c'.1 !! o = objects c.1 !! o).
Proof.
  cbv zeta. rewrite rebuildEffect_run. cbv zeta. unfold assignOptionIds.
  destruct (assignOptionIds_from_spec 0 (entriesOf p) (uniqueId p) c)
    as (Hst & Harr & Hcalls & Hlen & Hnd & Hfresh & Hdom & Hold).
  simpl. rewrite Hst. by split_and!.
Qed.

(** ** Visibility *)

Lemma handleFocus_run c :
  exec handleFocus c
  = (c.1, mkState (selectedOption c.2) (selectedIndex c.2) (selectedOptions c.2)
            (navigableOptions c.2) true true).
Proof. by destruct c as [w st]. Qed.

(** C7, as the code has it.  The focus handler opens the popover and sets
    [popoverWasActive] from every configuration, whether the popover was
    open or closed and whether the navigable list is empty or not; it
    leaves the cursor, the list and the store alone. *)
Theorem handleFocus_always_opens c :
  let c' := exec handleFocus c in
  popoverActive c'.2 = true ∧ popoverWasActive c'.2 = true ∧
  cursor c'.2 = cursor c.2 ∧ navigableOptions c'.2 = navigableOptions c.2 ∧
  selectedOptions c'.2 = selectedOptions c.2 ∧ c'.1 = c.1.
Proof. cbv zeta. by rewrite handleFocus_run. Qed.

(** The guarded opening, for comparison: [handlePopoverOpen] changes the
    state only when the popover is closed and the list is non-empty. *)
Lemma handlePopoverOpen_run s c :
  exec (handlePopoverOpen s) c
  = if negb (popoverActive s) && bool_decide (navigableOptions s ≠ [])
    then exec handleFocus c else c.
Proof.
  unfold handlePopoverOpen.
  replace (bool_decide (js_length (navigableOptions s) > 0))
    with (bool_decide (navigableOptions s ≠ [])).
  - destruct (negb _ && _); [done|by destruct c].
  - apply bool_decide_ext. rewrite <- js_length_zero. unfold js_length. lia.
Qed.

(** C7, as the claim has it, fails on an empty list: focus opens the closed
    popover of a component mounted without options, and with an
    empty-state placeholder it stays open after the visibility effect. *)
Lemma handleFocus_opens_on_empty_list :
  let k := mount (emptyProps true) (demoWorld []) in
  navigableOptions k.2.2 = [] ∧
  popoverActive k.2.2 = false ∧
  popoverActive (run [Focus] k).2.2 = true ∧
  popoverActive (run [Focus; VisibilityEffect] k).2.2 = true ∧
  (run [Focus] k).2 ≠ k.2.
Proof. vm_compute. split_and!; done. Qed.

(** ** List changes: the cursor and the popover *)

Lemma updateIndexOfSelectedOption_run s newOptions c :
  exec (updateIndexOfSelectedOption s newOptions) c
  = let otherwise :=
      if decide (selectedIndex s > js_length newOptions - 1)
      then exec (resetVisuallySelectedOptions s) c
      else exec (selectOptionAtIndex s (selectedIndex s)) c in
    match selectedOption s with
    | Some o =>
        if decide (o ∈ newOptions)
        then exec (selectOptionAtIndex s (indexOf o newOptions)) c
        else otherwise
    | None => otherwise
    end.
Proof.
  unfold updateIndexOfSelectedOption, includes. cbv zeta.
  destruct (selectedOption s) as [o|]; simpl.
  - case_bool_decide; [by rewrite decide_True by done|].
    rewrite (decide_False (P := o ∈ newOptions)) by done.
    by case_bool_decide; [rewrite decide_True by done|rewrite decide_False by done].
  - by case_bool_decide; [rewrite decide_True by done|rewrite decide_False by done].
Qed.

Lemma sameOutsideCursor_refl c : sameOutsideCursor c c.
Proof. by repeat split. Qed.

Lemma selectOptionAtIndex_frame s i c :
  sameOutsideCursor c (exec (selectOptionAtIndex s i) c).
Proof.
  rewrite selectOptionAtIndex_run. case_decide; [apply sameOutsideCursor_refl|].
  by repeat split.
Qed.

Lemma resetVisuallySelectedOptions_frame s c :
  sameOutsideCursor c (exec (resetVisuallySelectedOptions s) c).
Proof. rewrite resetVisuallySelectedOptions_run. by repeat split. Qed.

Lemma updateIndexOfSelectedOption_frame s l c :
  sameOutsideCursor c (exec (updateIndexOfSelectedOption s l) c).
Proof.
  rewrite updateIndexOfSelectedOption_run. cbv zeta.
  destruct (selectedOption s); repeat case_decide;
    auto using selectOptionAtIndex_frame, resetVisuallySelectedOptions_frame.
Qed.

(** The visibility effect, by case. *)
Lemma visibilityEffect_run p s c :
  exec (visibilityEffect p s) c
  = if decide (navigableOptions s = [])
    then if contentBefore p || contentAfter p || emptyState p
         then c else exec forcePopoverActiveFalse c
    else if popoverWasActive s then exec forcePopoverActiveTrue c else c.
Proof.
  unfold visibilityEffect.
  destruct (decide (navigableOptions s = [])) as [Hnil|Hne].
  - rewrite bool_decide_eq_true_2 by (by apply js_length_zero).
    rewrite (bool_decide_eq_false_2 (_ ≠ 0)) by (rewrite js_length_zero; auto).
    destruct (contentBefore p), (contentAfter p), (emptyState p),
      (popoverWasActive s), c; reflexivity.
  - rewrite bool_decide_eq_false_2 by (by rewrite js_length_zero).
    rewrite (bool_decide_eq_true_2 (_ ≠ 0)) by (by rewrite js_length_zero).
    destruct (popoverWasActive s), c; reflexivity.
Qed.

(** The visibility effect writes the popover flag and nothing else. *)
Lemma visibilityEffect_frame p s c :
  let c' := exec (visibilityEffect p s) c in
  c'.1 = c.1 ∧ cursor c'.2 = cursor c.2 ∧
  navigableOptions c'.2 = navigableOptions c.2 ∧
  popoverWasActive c'.2 = popoverWasActive c.2 ∧
  selectedOptions c'.2 = selectedOptions c.2.
Proof.
  cbv zeta. rewrite visibilityEffect_run.
  destruct c as [w st]. by repeat case_match.
Qed.

Lemma listChanged_unfold p0 p c :
  run (listChanged p) (p0, c)
  = let c1 := exec (rebuildEffect p) c in
    let c2 := exec (cursorEffect c1.2) c1 in
    (p, exec (visibilityEffect p c2.2) c2).
Proof. reflexivity. Qed.

(** The cursor effect when the highlighted object is not in the list. *)
Lemma cursorEffect_gone s c :
  (∀ o, selectedOption s = Some o → o ∉ navigableOptions s) →
  exec (cursorEffect s) c
  = if decide (selectedIndex s > js_length (navigableOptions s) - 1)
    then exec (resetVisuallySelectedOptions s) c
    else exec (selectOptionAtIndex s (selectedIndex s)) c.
Proof.
  intros Hgone. unfold cursorEffect. rewrite updateIndexOfSelectedOption_run. cbv zeta.
  destruct (selectedOption s) as [o|]; [|done].
  by rewrite (decide_False (P := o ∈ navigableOptions s)) by auto.
Qed.

(** How the cursor effect recomputes the cursor against the list [l] of
    the render it runs in.  If the highlighted object is in [l], the cursor
    goes to its first position there.  Otherwise, if the index is past the
    end of [l], the cursor is cleared.  Otherwise the index is kept and the
    highlighted entry becomes the entry of [l] at that index (nothing
    changes at all when [l] is empty). *)
Theorem cursorEffect_cases s c :
  let l := navigableOptions s in
  let i := selectedIndex s in
  let c' := exec (cursorEffect s) c in
  let gone := ∀ o, selectedOption s = Some o → o ∉ l in
  (∀ o, selectedOption s = Some o → o ∈ l →
     cursor c'.2 = (indexOf o l, Some o) ∧ js_get l (indexOf o l) = Some o) ∧
  (gone → i > js_length l - 1 → cursor c'.2 = (-1, None)) ∧
  (gone → i ≤ js_length l - 1 → l ≠ [] → cursor c'.2 = (i, js_get l i)) ∧
  (gone → i ≤ js_length l - 1 → l = [] → c' = c).
Proof.
  cbv zeta. split_and!.
  - intros o Ho Hin. unfold cursorEffect. rewrite updateIndexOfSelectedOption_run.
    cbv zeta. rewrite Ho, decide_True by done.
    destruct (indexOf_elem_of o _ Hin) as (j & Hj & Hlook & _).
    assert (js_get (navigableOptions s) (indexOf o (navigableOptions s)) = Some o) as Hget.
    { rewrite Hj. unfold js_get. rewrite decide_True by lia. by rewrite Nat2Z.id. }
    split; [|done].
    rewrite selectOptionAtIndex_run, decide_False.
    + unfold cursor. simpl. by rewrite Hget.
    + intros Hnil. rewrite Hnil in Hin. by apply elem_of_nil in Hin.
  - intros Hgone Hi. rewrite cursorEffect_gone, decide_True by done.
    by rewrite resetVisuallySelectedOptions_run.
  - intros Hgone Hi Hne. rewrite cursorEffect_gone, decide_False by (done || lia).
    by rewrite selectOptionAtIndex_run, decide_False.
  - intros Hgone Hi Hnil. rewrite cursorEffect_gone, decide_False by (done || lia).
    by rewrite selectOptionAtIndex_run, decide_True.
Qed.

Lemma cursorEffect_cases_witness :
  let s := mkState (Some 5%nat) 1 0%nat [7; 4; 5; 6]%nat true true in
  5%nat ∈ navigableOptions s ∧
  cursor (exec (cursorEffect s) (demoWorld [], s)).2 = (2, Some 5%nat).
Proof.
  cbv zeta. split; [compute_done|].
  destruct (cursorEffect_cases (mkState (Some 5%nat) 1 0%nat [7; 4; 5; 6]%nat true true)
              (demoWorld [], mkState (Some 5%nat) 1 0%nat [7; 4; 5; 6]%nat true true))
    as (Hfound & _).
  destruct (Hfound 5%nat) as [Hcursor _]; [reflexivity | compute_done |].
  rewrite Hcursor. reflexivity.
Defined.

(** C4 on a rebuild as the component performs it.  Options [A, B, C] are
    mounted and the cursor is moved onto [B] (index 1).  The caller then
    renders with [X, A, B, C], the same option objects, [B] now third.  The
    rebuilt list holds new copies only, so the highlighted object is not in
    it; the index 1 is within bounds and is kept: the cursor ends on the
    copy of [A], not on [B] at its new position 2. *)
Theorem rebuild_does_not_follow_item :
  let k0 := mount (demoProps false [0; 1; 2]%nat) (demoWorld []) in
  let k1 := run [Navigate SelectNextOption; CursorEffect;
                 Navigate SelectNextOption; CursorEffect] k0 in
  let k2 := run (listChanged (demoProps false [3; 0; 1; 2]%nat)) k1 in
  (cursor k1.2.2 = (1, Some 5%nat) ∧ valueOf k1.2.1 5%nat = Some "B") ∧
  valueOf k2.2.1 <$> navigableOptions k2.2.2 = [Some "X"; Some "A"; Some "B"; Some "C"] ∧
  includes 5%nat (navigableOptions k2.2.2) = false ∧
  (cursor k2.2.2 = (1, Some 8%nat) ∧ valueOf k2.2.1 8%nat = Some "A").
Proof. vm_compute. split_and!; done. Qed.

(** No rebuild keeps the highlighted object: whatever the props, the list
    built by the rebuild effect does not contain the object the cursor was
    on, so the cursor effect that follows either clears the cursor or keeps
    its index. *)
Theorem rebuild_forgets_highlight p0 p c o :
  selectedOption c.2 = Some o →
  o ∈ dom (objects c.1) →
  let k := run (listChanged p) (p0, c) in
  (o ∉ navigableOptions k.2.2) ∧
  (cursor k.2.2 = (-1, None) ∨ selectedIndex k.2.2 = selectedIndex c.2).
Proof.
  intros Ho Hdom. cbv zeta. rewrite listChanged_unfold. cbv zeta.
  destruct (rebuildEffect_spec p c)
    as (_ & _ & Hcur & _ & _ & _ & _ & _ & Hfresh & _).
  set (c1 := exec (rebuildEffect p) c) in *.
  assert (selectedOption c1.2 = Some o ∧ selectedIndex c1.2 = selectedIndex c.2)
    as [Ho1 Hi1].
  { unfold cursor in Hcur. by injection Hcur as -> ->. }
  assert (o ∉ navigableOptions c1.2) as Hgone.
  { intros Hin. by apply Hfresh in Hin. }
  destruct (updateIndexOfSelectedOption_frame c1.2 (navigableOptions c1.2) c1)
    as (Hnav2 & _).
  fold (cursorEffect c1.2) in Hnav2.
  assert (∀ o', selectedOption c1.2 = Some o' → o' ∉ navigableOptions c1.2) as Hgone'.
  { intros o' Ho'. rewrite Ho1 in Ho'. by injection Ho' as <-. }
  pose proof (cursorEffect_gone c1.2 c1 Hgone') as Hrun.
  set (c2 := exec (cursorEffect c1.2) c1) in *.
  destruct (visibilityEffect_frame p c2.2 c2) as (_ & Hcur3 & Hnav3 & _).
  cbn [snd]. rewrite Hnav3, Hnav2.
  split; [done|].
  unfold cursor in Hcur3 |- *. injection Hcur3 as -> ->. rewrite Hrun, <- Hi1.
  case_decide.
  - left. by rewrite resetVisuallySelectedOptions_run.
  - right. rewrite selectOptionAtIndex_run. by case_decide.
Qed.

Lemma rebuild_forgets_highlight_witness :
  let k1 := run [Navigate SelectNextOption; CursorEffect;
                 Navigate SelectNextOption; CursorEffect]
              (mount (demoProps false [0; 1; 2]%nat) (demoWorld [])) in
  selectedOption k1.2.2 = Some 5%nat ∧
  5%nat ∈ dom (objects k1.2.1) ∧
  5%nat ∉ navigableOptions (run (listChanged (demoProps false [3; 0; 1; 2]%nat)) k1).2.2.
Proof.
  cbv zeta.
  set (k1 := run _ (mount _ _)).
  assert (selectedOption k1.2.2 = Some 5%nat) as Ho by (by vm_compute).
  assert (5%nat ∈ dom (objects k1.2.1)) as Hdom by (apply elem_of_dom; vm_compute; eauto).
  split; [done|]. split; [done|].
  destruct k1 as [p1 c1].
  by destruct (rebuild_forgets_highlight p1 (demoProps false [3; 0; 1; 2]%nat) c1 5%nat Ho Hdom).
Defined.

(** ** The [active] flag *)

Lemma isActive_alter_eq b h o :
  isActive (alter (with_active b) o h) o = true → b = true.
Proof.
  unfold isActive. rewrite bool_decide_eq_true, lookup_alter_eq.
  destruct (h !! o); simpl; [congruence|done].
Qed.

Lemma isActive_alter_ne b h o o' :
  o ≠ o' → isActive (alter (with_active b) o h) o' = isActive h o'.
Proof. intros Hne. unfold isActive. by rewrite lookup_alter_ne. Qed.

(** After the two writes, an active object is the new one, or one that was
    active already and is not the old one. *)
Lemma isActive_highlight newOption oldOption h o :
  isActive (highlight newOption oldOption h) o = true →
  newOption = Some o ∨ (oldOption ≠ Some o ∧ isActive h o = true).
Proof.
  unfold highlight. intros Hact.
  destruct newOption as [n|].
  - destruct (decide (n = o)) as [->|Hn]; [by left|right].
    rewrite isActive_alter_ne in Hact by done.
    destruct oldOption as [old|]; [|done].
    destruct (decide (old = o)) as [->|Hold].
    + by apply isActive_alter_eq in Hact.
    + rewrite isActive_alter_ne in Hact by done. split; [congruence|done].
  - right. destruct oldOption as [old|]; [|done].
    destruct (decide (old = o)) as [->|Hold].
    + by apply isActive_alter_eq in Hact.
    + rewrite isActive_alter_ne in Hact by done. split; [congruence|done].
Qed.

Lemma isActive_setActiveAll_false l h o :
  o ∈ l → isActive (setActiveAll false l h) o = false.
Proof.
  intros Hin. unfold isActive. rewrite setActiveAll_lookup, decide_True by done.
  apply bool_decide_eq_false. by destruct (h !! o).
Qed.

(** Highlighting the entry at an index of the committed list keeps the
    invariant. *)
Lemma moved_onlyCursorActive c i : onlyCursorActive c → onlyCursorActive (moved c i).
Proof.
  intros [Hnd Hall]. split; [done|]. simpl.
  rewrite Forall_forall in Hall. apply Forall_forall. intros o Hin Hact.
  apply isActive_highlight in Hact as [Hnew|[Hold Hact]]; [done|].
  by apply Hall in Hact.
Qed.

Lemma reset_onlyCursorActive c :
  onlyCursorActive c → onlyCursorActive (exec (resetVisuallySelectedOptions c.2) c).
Proof.
  intros [Hnd Hall]. rewrite resetVisuallySelectedOptions_run. split; [done|]. simpl.
  apply Forall_forall. intros o Hin Hact.
  by rewrite isActive_setActiveAll_false in Hact.
Qed.

Lemma selectOptionAtIndex_moved c i :
  exec (selectOptionAtIndex c.2 i) c
  = if decide (navigableOptions c.2 = []) then c else moved c i.
Proof. by rewrite selectOptionAtIndex_run. Qed.

Lemma navigate_onlyCursorActive n c : onlyCursorActive c → onlyCursorActive (navigate n c).
Proof.
  intros Hinv. destruct n; simpl.
  - rewrite selectOptionAtIndex_moved. case_decide; auto using moved_onlyCursorActive.
  - rewrite selectNextOption_run, selectOptionAtIndex_moved.
    case_decide; auto using moved_onlyCursorActive.
  - rewrite selectPreviousOption_run, selectOptionAtIndex_moved.
    case_decide; auto using moved_onlyCursorActive.
  - by apply reset_onlyCursorActive.
Qed.

Lemma onlyCursorActive_at_most_one c :
  onlyCursorActive c → (length (activeEntries c) ≤ 1)%nat.
Proof.
  intros [Hnd Hall]. unfold activeEntries.
  pose proof (NoDup_filter (λ o, isActive (objects c.1) o = true) _ Hnd) as Hnd'.
  assert (∀ o, o ∈ filter (λ o, isActive (objects c.1) o = true) (navigableOptions c.2) →
               selectedOption c.2 = Some o) as Hsel.
  { intros o [Hact Hin]%list_elem_of_filter. rewrite Forall_forall in Hall. auto. }
  destruct (filter _ _) as [|x [|y l]]; simpl; [lia..|].
  exfalso. apply NoDup_cons in Hnd' as [Hx _]. apply Hx.
  assert (Some x = Some y) as Hxy.
  { rewrite <- (Hsel x), <- (Hsel y); [done|set_solver..]. }
  injection Hxy as ->. set_solver.
Qed.

(** C9, as the code has it.  From a configuration in which the navigable
    list repeats no object and only the highlighted entry may be active,
    every sequence of
    [selectOptionAtIndex] (at any index), [selectNextOption],
    [selectPreviousOption] and [resetVisuallySelectedOptions] leaves at
    most one entry of the navigable list active. *)
Theorem navigation_at_most_one_active (ops : list NavOp) c :
  onlyCursorActive c →
  (length (activeEntries (foldl (λ c n, navigate n c) c ops)) ≤ 1)%nat.
Proof.
  intros Hinv. apply onlyCursorActive_at_most_one.
  revert c Hinv. induction ops as [|n ops IH]; intros c Hinv; simpl; [done|].
  apply IH. by apply navigate_onlyCursorActive.
Qed.

(** C9, as the claim has it, fails when the caller passes an entry marked
    active.  Options [A, B] with [B] marked are mounted: the copy of [B]
    is active.  One down arrow highlights the copy of [A] and clears only
    the previous highlight, of which there is none: two entries are active. *)
Lemma navigation_keeps_callers_active_flag :
  let c := (mount (demoProps false [0; 1]%nat) markedWorld).2 in
  navigableOptions c.2 = [2; 3]%nat ∧
  cursor c.2 = (-1, None) ∧
  activeEntries c = [3%nat] ∧
  activeEntries (navigate SelectNextOption c) = [2; 3]%nat ∧
  length (activeEntries (navigate SelectNextOption c)) = 2%nat.
Proof. vm_compute. split_and!; done. Qed.

Lemma navigation_at_most_one_active_witness :
  onlyCursorActive demoMounted ∧
  (length (activeEntries
     (foldl (λ c n, navigate n c) demoMounted
        [SelectNextOption; SelectNextOption; SelectOptionAtIndex 0;
         SelectPreviousOption; SelectOptionAtIndex 7; SelectNextOption])) ≤ 1)%nat.
Proof.
  assert (onlyCursorActive demoMounted) as Hinv by compute_done.
  split; [done|]. by apply navigation_at_most_one_active.
Defined.

(** ** Footprint of the component on the object store *)

Lemma writesWithin_same c c' :
  objects c'.1 = objects c.1 →
  navigableOptions c'.2 = navigableOptions c.2 →
  selectedOption c'.2 = selectedOption c.2 →
  writesWithin c c'.
Proof.
  intros Hobj Hnav Hsel. unfold writesWithin. rewrite Hobj, Hnav, Hsel. naive_solver.
Qed.

Lemma highlight_lookup_ne newOption oldOption h o :
  newOption ≠ Some o → oldOption ≠ Some o → highlight newOption oldOption h !! o = h !! o.
Proof.
  intros Hnew Hold. unfold highlight.
  destruct newOption as [n|], oldOption as [old|];
    rewrite ?lookup_alter_ne; congruence.
Qed.

Lemma js_get_elem_of {A} (l : list A) i x : js_get l i = Some x → x ∈ l.
Proof. unfold js_get. case_decide; [apply list_elem_of_lookup_2|done]. Qed.

Lemma moved_writesWithin c i : writesWithin c (moved c i).
Proof.
  split_and!; simpl.
  - intros o _ Hnav Hsel. apply highlight_lookup_ne; [|done].
    intros Hget%js_get_elem_of. done.
  - auto.
  - intros o Hget%js_get_elem_of. auto.
Qed.

Lemma reset_writesWithin c s' w' :
  objects w' = objects c.1 → navigableOptions s' = navigableOptions c.2 →
  selectedOption s' = selectedOption c.2 →
  writesWithin c (exec (resetVisuallySelectedOptions c.2) (w', s')).
Proof.
  intros Hobj Hnav Hsel. rewrite resetVisuallySelectedOptions_run.
  split_and!; simpl.
  - intros o _ Hnin _. by rewrite setActiveAll_lookup, decide_False, Hobj.
  - rewrite Hnav. auto.
  - done.
Qed.

Lemma selectOptionAtIndex_writesWithin c i :
  writesWithin c (exec (selectOptionAtIndex c.2 i) c).
Proof.
  rewrite selectOptionAtIndex_moved.
  case_decide; [by apply writesWithin_same|apply moved_writesWithin].
Qed.

Lemma navigate_writesWithin n c : writesWithin c (navigate n c).
Proof.
  destruct n; simpl.
  - apply selectOptionAtIndex_writesWithin.
  - rewrite selectNextOption_run.
    case_decide; [by apply writesWithin_same|apply selectOptionAtIndex_writesWithin].
  - rewrite selectPreviousOption_run.
    case_decide; [by apply writesWithin_same|apply selectOptionAtIndex_writesWithin].
  - destruct c as [w s]. by apply reset_writesWithin.
Qed.

Lemma cursorEffect_writesWithin c : writesWithin c (exec (cursorEffect c.2) c).
Proof.
  unfold cursorEffect. rewrite updateIndexOfSelectedOption_run. cbv zeta.
  assert (writesWithin c (exec (resetVisuallySelectedOptions c.2) c)) as Hreset.
  { destruct c as [w s]. by apply reset_writesWithin. }
  destruct (selectedOption c.2); repeat case_decide;
    auto using selectOptionAtIndex_writesWithin.
Qed.

Lemma rebuildEffect_writesWithin p c : writesWithin c (exec (rebuildEffect p) c).
Proof.
  destruct (rebuildEffect_spec p c)
    as (_ & _ & Hcur & _ & _ & _ & _ & _ & Hfresh & _ & Hold).
  unfold cursor in Hcur. injection Hcur as _ Hsel.
  split_and!.
  - intros o Hdom _ _. apply Hold. intros Hin%Hfresh. done.
  - intros o Hin%Hfresh. by right.
  - rewrite Hsel. auto.
Qed.

Lemma selectOptions_writesWithin p r c w' :
  objects w' = objects c.1 →
  writesWithin c (exec (selectOptions p c.2 r) (w', c.2)).
Proof.
  intros Hobj. rewrite selectOptions_run.
  destruct (allowMultiple p); [by apply writesWithin_same|].
  split_and!; simpl.
  - intros o _ Hnin _. by rewrite setActiveAll_lookup, decide_False, Hobj.
  - auto.
  - done.
Qed.

Lemma handleSelection_writesWithin p v c :
  writesWithin c (exec (handleSelection p c.2 v) c).
Proof.
  unfold handleSelection. rewrite exec_bind.
  destruct c as [[h a k] s]. simpl.
  destruct (includes v _).
  - rewrite exec_bind, exec_seq. simpl.
    by apply (selectOptions_writesWithin p (selected p) (mkWorld h a k, s)).
  - destruct (allowMultiple p) eqn:Hmulti.
    + rewrite exec_seq. simpl.
      by apply (selectOptions_writesWithin p (selected p) (mkWorld h a k, s)).
    + rewrite exec_bind. simpl.
      by apply (selectOptions_writesWithin p _ (mkWorld h a k, s)).
Qed.

Lemma handleEnter_writesWithin p key c :
  writesWithin c (exec (handleEnter p c.2 key) c).
Proof.
  unfold handleEnter. case_bool_decide; [by apply writesWithin_same|].
  destruct (selectedOption c.2) as [o|] eqn:Hsel; [|by apply writesWithin_same].
  destruct (popoverActive c.2); [|by apply writesWithin_same].
  rewrite exec_bind. destruct c as [[h a k] s]. simpl.
  destruct (isOption _).
  - rewrite exec_seq. simpl. set (v := default "" _).
    unfold handleSelection. rewrite exec_bind. simpl.
    destruct (includes v _).
    + rewrite exec_bind, exec_seq. simpl.
      by apply (selectOptions_writesWithin p (selected p) (mkWorld h a k, s)).
    + destruct (allowMultiple p) eqn:Hmulti.
      * rewrite exec_seq. simpl.
        by apply (selectOptions_writesWithin p (selected p) (mkWorld h a k, s)).
      * rewrite exec_bind. simpl.
        by apply (selectOptions_writesWithin p _ (mkWorld h a k, s)).
  - destruct (onAction _); by apply writesWithin_same.
Qed.

Lemma step_writesWithin o p c : writesWithin c (step o (p, c)).2.
Proof.
  destruct o; simpl.
  - apply navigate_writesWithin.
  - by apply writesWithin_same.
  - unfold syncSelectedEffect. case_bool_decide; destruct c; by apply writesWithin_same.
  - apply rebuildEffect_writesWithin.
  - apply cursorEffect_writesWithin.
  - destruct (visibilityEffect_frame p c.2 c) as (Hw & Hcur & Hnav & _).
    unfold cursor in Hcur. injection Hcur as _ Hsel.
    apply writesWithin_same; [by rewrite Hw|done..].
  - apply handleSelection_writesWithin.
  - destruct c as [w s]. by apply (selectOptions_writesWithin p _ (w, s)).
  - apply handleEnter_writesWithin.
  - destruct c; by apply writesWithin_same.
  - destruct c; by apply writesWithin_same.
  - unfold handleBlur. rewrite !exec_seq. destruct c as [w s]. simpl.
    by apply (reset_writesWithin (w, s)).
  - unfold handleClick. destruct (negb _); destruct c; by apply writesWithin_same.
Qed.

Lemma step_props o p c : (step o (p, c)).1 = match o with Render p' => p' | _ => p end.
Proof. by destruct o. Qed.

Lemma callerOwned_initial p w : callerOwned (objects w) (w, initialState p).
Proof. split_and!; simpl; [done|by intros o ?%elem_of_nil|done]. Qed.

Lemma writesWithin_callerOwned D c c' :
  callerOwned D c → writesWithin c c' → callerOwned D c'.
Proof.
  intros (Hsub & Hnav & Hsel) (Hwrite & Hnav' & Hsel').
  assert (dom D ⊆ dom (objects c.1)) as Hdom by (by apply subseteq_dom).
  split_and!.
  - apply map_subseteq_spec. intros o e Ho.
    rewrite Hwrite.
    + by eapply lookup_weaken.
    + apply Hdom. by apply elem_of_dom_2 in Ho.
    + intros Hin%Hnav. by apply elem_of_dom_2 in Ho.
    + intros Hs%Hsel. by apply elem_of_dom_2 in Ho.
  - intros o [Hin|Hnew]%Hnav'; [by apply Hnav|]. set_solver.
  - intros o [Hs|Hin]%Hsel'; [by apply Hsel|by apply Hnav].
Qed.

Lemma run_cons o ops k : run (o :: ops) k = run ops (step o k).
Proof. reflexivity. Qed.

Lemma run_callerOwned D ops p c : callerOwned D c → callerOwned D (run ops (p, c)).2.
Proof.
  revert p c. induction ops as [|o ops IH]; intros p c Hown; [done|].
  rewrite run_cons. pose proof (step_writesWithin o p c) as Hw.
  destruct (step o (p, c)) as [p' c']. apply IH.
  by eapply writesWithin_callerOwned.
Qed.

(** C10.  Let [D] be objects the component holds no reference to, as the
    caller's option and action objects are when it mounts.  After any
    sequence of events (navigation, renders with any props, rebuilds and
    the other effects, commits, focus, blur, click, keys) every object of
    [D] is in the store with the fields it had, and the navigable list and
    the cursor still point at none of them: the [active] writes land on the
    copies [assignOptionIds] makes. *)
Theorem caller_objects_never_written D ops p c :
  callerOwned D c →
  let c' := (run ops (p, c)).2 in
  D ⊆ objects c'.1 ∧
  (∀ o, o ∈ navigableOptions c'.2 → o ∉ dom D) ∧
  (∀ o, selectedOption c'.2 = Some o → o ∉ dom D).
Proof. intros Hown. by apply run_callerOwned. Qed.

Lemma caller_objects_never_written_witness :
  let w := demoWorld ["A"] in
  let p := demoProps false [0; 1; 2]%nat in
  let ops := [RebuildEffect; CursorEffect; VisibilityEffect; Focus;
              Navigate SelectNextOption; CursorEffect;
              Navigate SelectNextOption; CursorEffect;
              Render (demoProps false [3; 0; 1; 2]%nat);
              RebuildEffect; CursorEffect; VisibilityEffect;
              Navigate SelectPreviousOption; Enter 13; Blur] in
  callerOwned (objects w) (w, initialState p) ∧
  objects w ⊆ objects (run ops (p, (w, initialState p))).2.1.
Proof.
  cbv zeta. split; [apply callerOwned_initial|].
  apply (caller_objects_never_written (objects (demoWorld ["A"]))).
  apply callerOwned_initial.
Defined.

(** ** Reachable configurations keep the invariant of navigation *)

(** A copy made by [assignOptionIds] is active only if the entry it was
    copied from was. *)
Lemma assignOptionIds_from_active k opts i c l :
  let r := assignOptionIds_from k opts i c in
  l ∈ r.1 → isActive (objects r.2.1) l = true →
  ∃ o, o ∈ opts ∧ isActive (objects c.1) o = true.
Proof.
  cbv zeta. revert k c. induction opts as [|o opts IH]; intros k [[h a cs] st].
  - simpl. by intros ?%elem_of_nil.
  - cbn [assignOptionIds_from]. rewrite !run_bind. simpl.
    set (e := with_id _ _). set (l0 := fresh (dom h)).
    pose proof (assignOptionIds_from_spec (S k) opts i (mkWorld (<[l0 := e]> h) a cs, st))
      as (_ & _ & _ & _ & _ & Hfresh & _ & Hold).
    specialize (IH (S k) (mkWorld (<[l0 := e]> h) a cs, st)).
    simpl in *.
    assert (isActive (<[l0 := e]> h) l0 = true → isActive h o = true) as Hhead.
    { unfold isActive. rewrite !bool_decide_eq_true, lookup_insert_eq. subst e.
      destruct (h !! o); simpl; [done|by intros [=]]. }
    intros [->|Hin]%elem_of_cons Hact.
    + exists o. split; [set_solver|]. apply Hhead.
      unfold isActive in *. rewrite Hold in Hact; [done|].
      intros Hin%Hfresh. apply Hin. set_solver.
    + destruct (IH Hin Hact) as (o' & Ho' & Hact').
      destruct (decide (o' = l0)) as [->|Hne].
      * exists o. split; [set_solver|auto].
      * exists o'. split; [set_solver|].
        unfold isActive in *. by rewrite lookup_insert_ne in Hact'.
Qed.

Lemma onlyCursorActive_same c c' :
  objects c'.1 = objects c.1 →
  navigableOptions c'.2 = navigableOptions c.2 →
  selectedOption c'.2 = selectedOption c.2 →
  onlyCursorActive c → onlyCursorActive c'.
Proof. unfold onlyCursorActive. by intros -> -> ->. Qed.

Lemma onlyCursorActive_cleared c c' :
  objects c'.1 = setActiveAll false (navigableOptions c.2) (objects c.1) →
  navigableOptions c'.2 = navigableOptions c.2 →
  onlyCursorActive c → onlyCursorActive c'.
Proof.
  intros Hobj Hnav [Hnd _]. unfold onlyCursorActive. rewrite Hobj, Hnav.
  split; [done|]. apply Forall_forall. intros o Hin Hact.
  by rewrite isActive_setActiveAll_false in Hact.
Qed.

Lemma selectOptions_onlyCursorActive p r c w' :
  objects w' = objects c.1 →
  onlyCursorActive c → onlyCursorActive (exec (selectOptions p c.2 r) (w', c.2)).
Proof.
  intros Hobj Hinv. rewrite selectOptions_run.
  destruct (allowMultiple p).
  - by apply (onlyCursorActive_same c).
  - apply (onlyCursorActive_cleared c); [simpl; by rewrite Hobj | done | done].
Qed.

Lemma handleSelection_onlyCursorActive p v c :
  onlyCursorActive c → onlyCursorActive (exec (handleSelection p c.2 v) c).
Proof.
  intros Hinv. unfold handleSelection. rewrite exec_bind.
  destruct c as [[h a k] s]. simpl.
  destruct (includes v _); [|destruct (allowMultiple p) eqn:Hmulti].
  - rewrite exec_bind, exec_seq. simpl.
    by apply (selectOptions_onlyCursorActive p (selected p) (mkWorld h a k, s)).
  - rewrite exec_seq. simpl.
    by apply (selectOptions_onlyCursorActive p (selected p) (mkWorld h a k, s)).
  - rewrite exec_bind. simpl.
    by apply (selectOptions_onlyCursorActive p _ (mkWorld h a k, s)).
Qed.

Lemma cursorEffect_onlyCursorActive c :
  onlyCursorActive c → onlyCursorActive (exec (cursorEffect c.2) c).
Proof.
  intros Hinv. unfold cursorEffect. rewrite updateIndexOfSelectedOption_run. cbv zeta.
  pose proof (reset_onlyCursorActive c Hinv) as Hreset.
  assert (∀ i, onlyCursorActive (exec (selectOptionAtIndex c.2 i) c)) as Hsel.
  { intros i. rewrite selectOptionAtIndex_moved.
    case_decide; auto using moved_onlyCursorActive. }
  destruct (selectedOption c.2); repeat case_decide; auto.
Qed.

Lemma rebuildEffect_onlyCursorActive D p c :
  noneActive D → callerOwned D c → listsOnly D p →
  onlyCursorActive (exec (rebuildEffect p) c).
Proof.
  intros Hnone (Hsub & _) Hprops.
  destruct (rebuildEffect_spec p c) as (_ & _ & _ & _ & _ & _ & _ & Hnd & _).
  split; [done|]. apply Forall_forall. intros l Hin Hact. exfalso.
  rewrite rebuildEffect_run in Hin, Hact. cbv zeta in Hin, Hact. simpl in Hin, Hact.
  destruct (assignOptionIds_from_active 0 (entriesOf p) (uniqueId p) c l Hin Hact)
    as (o & Ho & Hacto).
  unfold listsOnly in Hprops. rewrite Forall_forall in Hprops.
  apply Hprops, elem_of_dom in Ho as [e He].
  specialize (Hnone o e He). unfold isActive in Hacto.
  rewrite (lookup_weaken _ _ _ _ He Hsub) in Hacto.
  by apply bool_decide_eq_true in Hacto.
Qed.

Lemma step_onlyCursorActive D o p c :
  noneActive D → callerOwned D c → listsOnly D p →
  onlyCursorActive c → onlyCursorActive (step o (p, c)).2.
Proof.
  intros Hnone Hown Hprops Hinv. destruct o; simpl.
  - by apply navigate_onlyCursorActive.
  - done.
  - unfold syncSelectedEffect.
    case_bool_decide; destruct c; by apply (onlyCursorActive_same _ _ eq_refl eq_refl eq_refl).
  - by eapply rebuildEffect_onlyCursorActive.
  - by apply cursorEffect_onlyCursorActive.
  - destruct (visibilityEffect_frame p c.2 c) as (Hw & Hcur & Hnav & _).
    unfold cursor in Hcur. injection Hcur as _ Hsel.
    apply (onlyCursorActive_same c); [by rewrite Hw|done..].
  - by apply handleSelection_onlyCursorActive.
  - destruct c as [w s]. by apply (selectOptions_onlyCursorActive p _ (w, s)).
  - unfold handleEnter. case_bool_decide; [done|].
    destruct (selectedOption c.2) as [o|] eqn:Hsel; [|done].
    destruct (popoverActive c.2); [|done].
    rewrite exec_bind. destruct c as [[h a k] s]. simpl.
    destruct (isOption _).
    + rewrite exec_seq. simpl. set (v := default "" _).
      pose proof (handleSelection_onlyCursorActive p v
                    (mkWorld h a (k ++ [PreventDefault]), s)) as Hsel'.
      apply Hsel'. by apply (onlyCursorActive_same (mkWorld h a k, s)).
    + destruct (onAction _); by apply (onlyCursorActive_same (mkWorld h a k, s)).
  - destruct c; by apply (onlyCursorActive_same _ _ eq_refl eq_refl eq_refl).
  - destruct c; by apply (onlyCursorActive_same _ _ eq_refl eq_refl eq_refl).
  - unfold handleBlur. rewrite !exec_seq, resetVisuallySelectedOptions_run.
    destruct c as [w s]. by apply (onlyCursorActive_cleared (w, s)).
  - unfold handleClick.
    destruct (negb _); destruct c; by apply (onlyCursorActive_same _ _ eq_refl eq_refl eq_refl).
Qed.

(** Whatever happens to a component whose caller never sets [active] on
    the option and action objects it passes, at most one entry of the
    navigable list is active: the invariant of navigation holds in the
    initial state and after every event. *)
Theorem reachable_at_most_one_active D ops p c :
  noneActive D → callerOwned D c → onlyCursorActive c →
  listsOnly D p → rendersFrom D ops →
  onlyCursorActive (run ops (p, c)).2 ∧
  (length (activeEntries (run ops (p, c)).2) ≤ 1)%nat.
Proof.
  intros Hnone Hown Hinv Hprops Hops.
  assert (onlyCursorActive (run ops (p, c)).2) as Hfinal.
  { revert p c Hown Hinv Hprops.
    induction Hops as [|o ops Ho Hops IH]; intros p c Hown Hinv Hprops; [done|].
    rewrite run_cons.
    pose proof (step_onlyCursorActive D o p c Hnone Hown Hprops Hinv) as Hinv'.
    pose proof (writesWithin_callerOwned D _ _ Hown (step_writesWithin o p c)) as Hown'.
    pose proof (step_props o p c) as Hp'.
    destruct (step o (p, c)) as [p' c']. simpl in *.
    apply IH; [done..|]. subst p'. by destruct o. }
  split; [done|]. by apply onlyCursorActive_at_most_one.
Qed.

Lemma reachable_at_most_one_active_witness :
  let w := demoWorld ["A"] in
  let p := demoProps true [0; 1; 2]%nat in
  let ops := [RebuildEffect; CursorEffect; VisibilityEffect; Focus;
              Navigate SelectNextOption; CursorEffect;
              Render (demoProps true [3; 0; 1; 2]%nat);
              RebuildEffect; CursorEffect; VisibilityEffect;
              Navigate SelectPreviousOption; Enter 13;
              Navigate SelectNextOption] in
  noneActive (objects w) ∧ listsOnly (objects w) p ∧ rendersFrom (objects w) ops ∧
  (length (activeEntries (run ops (p, (w, initialState p))).2) ≤ 1)%nat.
Proof.
  cbv zeta.
  assert (noneActive (objects (demoWorld ["A"]))) as Hnone by compute_done.
  assert (listsOnly (objects (demoWorld ["A"])) (demoProps true [0; 1; 2]%nat))
    as Hprops by compute_done.
  split; [done|]. split; [done|]. split; [compute_done|].
  apply (reachable_at_most_one_active (objects (demoWorld ["A"]))); try done.
  - apply callerOwned_initial.
  - compute_done.
  - compute_done.
Defined.

(** ** The copies a rebuild makes *)

(** Position by position: the copy of an entry that is in the store has
    the entry's fields and the id of its position. *)
Lemma assignOptionIds_from_copies k opts i c :
  Forall (λ o, o ∈ dom (objects c.1)) opts →
  let r := assignOptionIds_from k opts i c in
  ∀ (j : nat) o e, opts !! j = Some o → objects c.1 !! o = Some e →
    ∃ l, r.1 !! j = Some l ∧
         objects r.2.1 !! l = Some (with_id (i +:+ "-" +:+ pretty (k + j)%nat) e).
Proof.
  cbv zeta. revert k c. induction opts as [|o opts IH]; intros k [[h a cs] st] Hex j o' e Hj He.
  - by rewrite lookup_nil in Hj.
  - apply Forall_cons in Hex as [Ho Hex]. simpl in Ho, He.
    cbn [assignOptionIds_from]. rewrite !run_bind. simpl.
    set (e0 := with_id _ _). set (l0 := fresh (dom h)).
    assert (l0 ∉ dom h) as Hl0 by apply is_fresh.
    pose proof (assignOptionIds_from_spec (S k) opts i (mkWorld (<[l0 := e0]> h) a cs, st))
      as (_ & _ & _ & _ & _ & Hfresh & _ & Hold).
    simpl in Hfresh, Hold.
    destruct j as [|j]; simpl in Hj.
    + injection Hj as ->. exists l0. split; [done|].
      rewrite Hold.
      * rewrite lookup_insert_eq. subst e0. rewrite He. simpl.
        by rewrite Nat.add_0_r.
      * intros Hin%Hfresh. apply Hin. set_solver.
    + destruct (IH (S k) (mkWorld (<[l0 := e0]> h) a cs, st)) with (j := j) (o := o') (e := e)
        as (l & Hl & Hcopy).
      * simpl. eapply Forall_impl; [exact Hex|]. simpl. intros x Hx. set_solver.
      * done.
      * simpl. rewrite lookup_insert_ne; [done|].
        intros <-. apply Hl0. by apply elem_of_dom_2 in He.
      * exists l. split; [done|]. by rewrite Nat.add_succ_r.
Qed.

(** X4.  When the store holds every entry the props list, the rebuilt
    navigable list has, position by position, a new object with the fields
    of the caller's entry ([value], [active], [onAction], the rest) and the
    id [uniqueId-position]; the order is leading actions, options, trailing
    actions. *)
Theorem rebuildEffect_copies p c :
  entriesExist c.1 p →
  let c' := exec (rebuildEffect p) c in
  length (navigableOptions c'.2) = length (entriesOf p) ∧
  ∀ (j : nat) o e, entriesOf p !! j = Some o → objects c.1 !! o = Some e →
    ∃ l, navigableOptions c'.2 !! j = Some l ∧ (l ∉ dom (objects c.1)) ∧
         objects c'.1 !! l = Some (with_id (uniqueId p +:+ "-" +:+ pretty j) e).
Proof.
  intros Hex. cbv zeta.
  destruct (rebuildEffect_spec p c) as (_ & _ & _ & _ & _ & _ & Hlen & _ & Hfresh & _).
  split; [done|]. intros j o e Hj He.
  rewrite rebuildEffect_run in Hfresh |- *. cbv zeta in Hfresh |- *. simpl in Hfresh |- *.
  destruct (assignOptionIds_from_copies 0 (entriesOf p) (uniqueId p) c Hex j o e Hj He)
    as (l & Hl & Hcopy).
  exists l. split_and!; [done| |done].
  apply Hfresh. by eapply list_elem_of_lookup_2.
Qed.

Lemma rebuildEffect_copies_witness :
  entriesExist actionWorld actionProps ∧
  ∃ l, navigableOptions (exec (rebuildEffect actionProps)
                           (actionWorld, initialState actionProps)).2 !! 2%nat = Some l ∧
       valueOf (exec (rebuildEffect actionProps)
                  (actionWorld, initialState actionProps)).1 l = Some "B" ∧
       objects (exec (rebuildEffect actionProps)
                  (actionWorld, initialState actionProps)).1 !! l ≫= id
       = Some "ComboBox1-2".
Proof.
  assert (entriesExist actionWorld actionProps) as Hex by compute_done.
  split; [done|].
  destruct (rebuildEffect_copies actionProps (actionWorld, initialState actionProps) Hex)
    as [_ Hcopy].
  destruct (Hcopy 2%nat 1%nat optionB) as (l & Hl & _ & Hobj); [done..|].
  exists l. unfold valueOf. rewrite Hobj. done.
Defined.

(** ** The lists handed to the renderers *)

Lemma filter_Forall_all {A} (P : A → Prop) `{∀ x, Decision (P x)} (l : list A) :
  Forall P l → filter P l = l.
Proof.
  induction 1 as [|x l Hx _ IH]; [done|]. by rewrite filter_cons_True, IH.
Qed.

Lemma filter_Forall_none {A} (P : A → Prop) `{∀ x, Decision (P x)} (l : list A) :
  Forall (λ x, ¬ P x) l → filter P l = [].
Proof.
  induction 1 as [|x l Hx _ IH]; [done|]. by rewrite filter_cons_False.
Qed.

(** A copy is an option exactly when the entry it was copied from is. *)
Lemma rebuildEffect_isOption p c :
  entriesExist c.1 p →
  let c' := exec (rebuildEffect p) c in
  Forall2 (λ l o, isOption (default emptyEntry (objects c'.1 !! l))
                  = isOption (default emptyEntry (objects c.1 !! o)))
    (navigableOptions c'.2) (entriesOf p).
Proof.
  intros Hex. cbv zeta.
  destruct (rebuildEffect_spec p c) as (_ & _ & _ & _ & _ & _ & Hlen & _).
  apply Forall2_same_length_lookup. split; [done|].
  intros j l o Hl Ho.
  pose proof Hex as Hex'. unfold entriesExist in Hex'. rewrite Forall_lookup in Hex'.
  assert (is_Some (objects c.1 !! o)) as [e He] by (apply elem_of_dom; eauto).
  rewrite rebuildEffect_run in Hl |- *. cbv zeta in Hl |- *. simpl in Hl |- *.
  destruct (assignOptionIds_from_copies 0 (entriesOf p) (uniqueId p) c Hex j o e Ho He)
    as (l' & Hl' & Hcopy).
  unfold assignOptionIds in *. rewrite Hl in Hl'. injection Hl' as <-.
  by rewrite Hcopy, He.
Qed.

(** X5.  Right after a rebuild from props whose entries are in the store,
    options with a [value] and actions without, the three lists handed to
    the renderers cut the navigable list in three: the leading actions are
    its first entries, the trailing actions its last, the options what is
    between, and together they are the whole list, in order. *)
Theorem markup_partitions p c :
  entriesExist c.1 p → entriesTyped c.1 p →
  let c' := exec (rebuildEffect p) c in
  let a := length (default [] (actionsBefore p)) in
  let n := length (options p) in
  let l := navigableOptions c'.2 in
  actionsBeforeItems p c'.2 = take a l ∧
  optionItems p c'.1 c'.2 = take n (drop a l) ∧
  actionsAfterItems p c'.2 = drop (a + n) l ∧
  actionsBeforeItems p c'.2 ++ optionItems p c'.1 c'.2 ++ actionsAfterItems p c'.2 = l.
Proof.
  intros Hex [Hopts Hacts]. cbv zeta.
  pose proof (rebuildEffect_isOption p c Hex) as Hcopies. cbv zeta in Hcopies.
  set (c' := exec (rebuildEffect p) c) in *.
  unfold entriesOf in Hcopies.
  apply Forall2_app_inv_r in Hcopies as (l1 & l23 & H1 & H23 & Hl).
  apply Forall2_app_inv_r in H23 as (l2 & l3 & H2 & H3 & ->).
  apply Forall_app in Hacts as [Hbefore Hafter].
  pose proof (Forall2_length _ _ _ H1) as Hlen1.
  pose proof (Forall2_length _ _ _ H2) as Hlen2.
  pose proof (Forall2_length _ _ _ H3) as Hlen3.
  assert (take (length (default [] (actionsBefore p))) (navigableOptions c'.2) = l1) as Ht1.
  { rewrite Hl, <- Hlen1. apply take_app_length. }
  assert (drop (length (default [] (actionsBefore p))) (navigableOptions c'.2) = l2 ++ l3)
    as Hd1.
  { rewrite Hl, <- Hlen1. apply drop_app_length. }
  assert (take (length (options p)) (l2 ++ l3) = l2) as Ht2.
  { rewrite <- Hlen2. apply take_app_length. }
  assert (drop (length (default [] (actionsBefore p)) + length (options p))
            (navigableOptions c'.2) = l3) as Hd2.
  { rewrite <- drop_drop, Hd1, <- Hlen2. apply drop_app_length. }
  assert (actionsBeforeItems p c'.2 = l1) as Hb.
  { unfold actionsBeforeItems, getActionsWithIds. rewrite <- Ht1.
    destruct (actionsBefore p) as [acts|]; simpl; [|done].
    case_bool_decide as Hpos; [done|].
    replace (length acts) with 0%nat by lia. done. }
  assert (actionsAfterItems p c'.2 = l3) as Ha.
  { unfold actionsAfterItems, getActionsWithIds. rewrite <- Hd2.
    assert (length (navigableOptions c'.2)
            = (length (default [] (actionsBefore p)) + length (options p)
               + length (default [] (actionsAfter p)))%nat) as Hlen.
    { rewrite Hl, !length_app. lia. }
    destruct (actionsAfter p) as [acts|]; simpl in *.
    - case_bool_decide as Hpos.
      + rewrite decide_False by lia. f_equal. lia.
      + symmetry. apply drop_ge. lia.
    - symmetry. apply drop_ge. lia. }
  assert (filterForOptions (objects c'.1) (navigableOptions c'.2) = l2) as Hf.
  { unfold filterForOptions. rewrite Hl, !filter_app.
    rewrite (filter_Forall_none _ l1), (filter_Forall_all _ l2), (filter_Forall_none _ l3).
    - by rewrite app_nil_r.
    - clear -H3 Hafter. induction H3 as [|x y l k Hxy _ IH]; [done|].
      apply Forall_cons in Hafter as [Hy Hafter].
      apply Forall_cons. split; [congruence|auto].
    - clear -H2 Hopts. induction H2 as [|x y l k Hxy _ IH]; [done|].
      apply Forall_cons in Hopts as [Hy Hopts].
      apply Forall_cons. split; [congruence|auto].
    - clear -H1 Hbefore. induction H1 as [|x y l k Hxy _ IH]; [done|].
      apply Forall_cons in Hbefore as [Hy Hbefore].
      apply Forall_cons. split; [congruence|auto]. }
  assert (optionItems p c'.1 c'.2 = l2) as Ho.
  { unfold optionItems. case_bool_decide as Hpos; [done|].
    destruct l2; [done|]. simpl in Hlen2. lia. }
  rewrite Hb, Ha, Ho, Ht1, Hd1, Ht2, Hd2. by split_and!.
Qed.

Lemma markup_partitions_witness :
  entriesExist actionWorld actionProps ∧ entriesTyped actionWorld actionProps ∧
  optionItems actionProps
    (exec (rebuildEffect actionProps) (actionWorld, initialState actionProps)).1
    (exec (rebuildEffect actionProps) (actionWorld, initialState actionProps)).2
  = [5; 6]%nat.
Proof.
  assert (entriesExist actionWorld actionProps) as Hex by compute_done.
  assert (entriesTyped actionWorld actionProps) as Hty by compute_done.
  split; [done|]. split; [done|].
  destruct (markup_partitions actionProps (actionWorld, initialState actionProps) Hex Hty)
    as (_ & Hopts & _).
  rewrite Hopts. reflexivity.
Defined.

(** ** Repeated navigation *)

Lemma moved_cursor c i :
  navigableOptions (moved c i).2 = navigableOptions c.2 ∧
  cursor (moved c i).2 = (i, js_get (navigableOptions c.2) i).
Proof. done. Qed.

(** X6.  On a non-empty list of length [n], from a cursor index [i] in
    [-1 .. n-1], [k ≥ 1] presses of the down arrow leave the cursor at
    index [(i + k) mod n] on the entry at that index: from [-1] the presses
    [1 .. n] visit the positions [0 .. n-1] once each, and from a position
    of the list [n] presses come back to it. *)
Theorem selectNextOption_iterated c (k : nat) :
  let l := navigableOptions c.2 in
  let n := js_length l in
  let i := selectedIndex c.2 in
  let after m := (Nat.iter m (navigate SelectNextOption) c).2 in
  l ≠ [] → -1 ≤ i < n → (0 < k)%nat →
  navigableOptions (after k) = l ∧
  cursor (after k) = ((i + Z.of_nat k) mod n, js_get l ((i + Z.of_nat k) mod n)) ∧
  (0 ≤ i → selectedIndex (after (length l)) = i).
Proof.
  cbv zeta. intros Hne Hi Hk.
  assert (js_length (navigableOptions c.2) > 0) as Hpos.
  { destruct (navigableOptions c.2); [done|]. unfold js_length. simpl. lia. }
  assert (∀ m : nat, (0 < m)%nat →
    navigableOptions (Nat.iter m (navigate SelectNextOption) c).2 = navigableOptions c.2 ∧
    cursor (Nat.iter m (navigate SelectNextOption) c).2
    = ((selectedIndex c.2 + Z.of_nat m) mod js_length (navigableOptions c.2),
       js_get (navigableOptions c.2)
         ((selectedIndex c.2 + Z.of_nat m) mod js_length (navigableOptions c.2)))) as Hiter.
  { intros m Hm. induction m as [|m IH]; [lia|].
    destruct m as [|m].
    - change (Nat.iter 1 (navigate SelectNextOption) c) with (navigate SelectNextOption c).
      rewrite navigate_next by done.
      destruct (moved_cursor c (if decide (selectedIndex c.2 + 1 >= js_length (navigableOptions c.2))
                                then 0 else selectedIndex c.2 + 1)) as [-> ->].
      split; [done|]. case_decide.
      + replace (selectedIndex c.2 + Z.of_nat 1) with (js_length (navigableOptions c.2)) by lia.
        by rewrite Z_mod_same_full.
      + by rewrite Z.mod_small by lia.
    - destruct IH as [Hnav Hcur]; [lia|].
      set (c1 := Nat.iter (S m) (navigate SelectNextOption) c) in *.
      change (Nat.iter (S (S m)) (navigate SelectNextOption) c)
        with (navigate SelectNextOption c1).
      rewrite navigate_next by (by rewrite Hnav).
      unfold cursor in Hcur. injection Hcur as Hidx _.
      destruct (moved_cursor c1 (if decide (selectedIndex c1.2 + 1
                                           >= js_length (navigableOptions c1.2))
                                 then 0 else selectedIndex c1.2 + 1)) as [-> ->].
      rewrite Hnav, Hidx. split; [done|].
      set (n := js_length (navigableOptions c.2)) in *.
      set (j := selectedIndex c.2 + Z.of_nat (S m)) in *.
      pose proof (Z.mod_pos_bound j n ltac:(lia)) as Hj.
      replace (selectedIndex c.2 + Z.of_nat (S (S m))) with (j + 1) by lia.
      rewrite <- (Zplus_mod_idemp_l j 1 n).
      case_decide.
      + replace (j mod n + 1) with n by lia. by rewrite Z_mod_same_full.
      + by rewrite (Z.mod_small (j mod n + 1)) by lia. }
  destruct (Hiter k Hk) as [Hnav Hcur]. split_and!; [done..|].
  intros Hi0.
  destruct (Hiter (length (navigableOptions c.2))) as [_ Hcur'].
  { unfold js_length in Hpos. lia. }
  unfold cursor in Hcur'. injection Hcur' as -> _.
  fold (js_length (navigableOptions c.2)).
  rewrite <- (Z.mul_1_l (js_length (navigableOptions c.2))) at 1.
  rewrite Z_mod_plus_full. apply Z.mod_small. lia.
Qed.

Lemma selectNextOption_iterated_witness :
  navigableOptions demoMounted.2 ≠ [] ∧
  -1 ≤ selectedIndex demoMounted.2 < js_length (navigableOptions demoMounted.2) ∧
  cursor (Nat.iter 5 (navigate SelectNextOption) demoMounted).2 = (1, Some 5%nat).
Proof.
  split; [done|]. split; [compute_done|].
  destruct (selectNextOption_iterated demoMounted 5) as (_ & Hcur & _);
    [done | compute_done | lia |].
  rewrite Hcur. reflexivity.
Defined.

(** ** More on the selection commit *)

(** The state and the objects a commit leaves, whatever the branch. *)
Lemma handleSelection_state p s v c :
  let c' := exec (handleSelection p s v) c in
  c'.2 = (if allowMultiple p then c.2
          else mkState None (-1) (selectedOptions c.2) (navigableOptions c.2) false false) ∧
  objects c'.1 = (if allowMultiple p then objects c.1
                  else setActiveAll false (navigableOptions s) (objects c.1)).
Proof.
  cbv zeta. unfold handleSelection. rewrite exec_bind.
  destruct c as [[h a k] st]. simpl.
  destruct (includes v _); [|destruct (allowMultiple p) eqn:Hmulti].
  - rewrite exec_bind, exec_seq, selectOptions_run. simpl. by destruct (allowMultiple p).
  - rewrite exec_seq, selectOptions_run, Hmulti. done.
  - rewrite exec_bind, selectOptions_run, Hmulti. done.
Qed.

Lemma indexOf_app_new {A} `{EqDecision A} (x : A) (l : list A) :
  x ∉ l → indexOf x (l ++ [x]) = Z.of_nat (length l).
Proof.
  intros Hnin.
  destruct (indexOf_elem_of x (l ++ [x])) as (i & -> & Hi & _); [set_solver|].
  f_equal. destruct (decide (i < length l)%nat) as [Hlt|Hge].
  - rewrite lookup_app_l in Hi by done. by apply list_elem_of_lookup_2 in Hi.
  - apply lookup_lt_Some in Hi. rewrite length_app in Hi. simpl in Hi. lia.
Qed.

(** X7.  Under multi-select, committing a value that is not selected and
    committing it again leaves the caller's array with the contents it had:
    the second commit removes exactly what the first appended.  [onSelect]
    is called twice, both times with that array. *)
Theorem handleSelection_toggle_twice p s1 s2 v c sel :
  allowMultiple p = true →
  arrays c.1 !! selected p = Some sel →
  v ∉ sel →
  let c1 := exec (handleSelection p s1 v) c in
  let c2 := exec (handleSelection p s2 v) c1 in
  arrays c1.1 !! selected p = Some (sel ++ [v]) ∧
  arrays c2.1 = arrays c.1 ∧
  calls c2.1 = calls c.1 ++ [OnSelect (selected p); OnSelect (selected p)].
Proof.
  intros Hmulti Hsel Hnin. cbv zeta.
  rewrite (handleSelection_run p s1 v c sel Hsel).
  rewrite (proj2 (includes_false v sel) Hnin), Hmulti.
  set (c1 := exec (selectOptions p s1 (selected p)) _).
  assert (arrays c1.1 = alter (push v) (selected p) (arrays c.1)) as Harr1.
  { unfold c1. by rewrite selectOptions_arrays. }
  assert (arrays c1.1 !! selected p = Some (sel ++ [v])) as Hsel1.
  { rewrite Harr1, lookup_alter_eq, Hsel. done. }
  assert (calls c1.1 = calls c.1 ++ [OnSelect (selected p)]) as Hcalls1.
  { unfold c1. by rewrite selectOptions_calls. }
  split; [done|].
  rewrite (handleSelection_run p s2 v c1 _ Hsel1).
  rewrite (proj2 (includes_true v (sel ++ [v]))) by set_solver.
  rewrite selectOptions_arrays, selectOptions_calls. simpl.
  rewrite Hcalls1, <- app_assoc. split; [|done].
  rewrite Harr1. apply map_eq. intros r.
  destruct (decide (r = selected p)) as [->|Hne].
  - rewrite !lookup_alter_eq, Hsel. simpl. f_equal.
    unfold push. rewrite indexOf_app_new by done.
    assert ((sel ++ [v]) !! length sel = Some v) as Hlast.
    { rewrite lookup_app_r by lia. by rewrite Nat.sub_diag. }
    destruct (splice1_lookup (sel ++ [v]) (length sel) v Hlast) as [-> _].
    rewrite take_app_length. rewrite drop_ge; [by rewrite app_nil_r|].
    rewrite length_app. simpl. lia.
  - by rewrite !lookup_alter_ne.
Qed.

Lemma handleSelection_toggle_twice_witness :
  let p := demoProps true [0; 1; 2]%nat in
  let c := (demoWorld ["A"], initialState p) in
  allowMultiple p = true ∧ arrays c.1 !! selected p = Some ["A"] ∧ ("B" ∉ ["A"]) ∧
  arrays (exec (handleSelection p c.2 "B") (exec (handleSelection p c.2 "B") c)).1
  = arrays c.1.
Proof.
  cbv zeta. split; [done|]. split; [done|].
  assert ("B" ∉ ["A"]) as Hnin by (by intros [=]%list_elem_of_singleton).
  split; [done|].
  by destruct (handleSelection_toggle_twice (demoProps true [0; 1; 2]%nat)
                 (initialState (demoProps true [0; 1; 2]%nat))
                 (initialState (demoProps true [0; 1; 2]%nat)) "B"
                 (demoWorld ["A"], initialState (demoProps true [0; 1; 2]%nat)) ["A"]
                 eq_refl eq_refl Hnin) as (_ & Harr & _).
Defined.

(** X8.  A commit that writes into the caller's array (the value is
    selected already, or multi-select is on) changes one occurrence of the
    committed value and nothing else: every other value stays, in the same
    order, and the length moves by one. *)
Theorem handleSelection_keeps_other_values p s v c sel :
  arrays c.1 !! selected p = Some sel →
  v ∈ sel ∨ allowMultiple p = true →
  let c' := exec (handleSelection p s v) c in
  ∃ after,
    arrays c'.1 !! selected p = Some after ∧
    filter (λ x, x ≠ v) after = filter (λ x, x ≠ v) sel ∧
    (v ∈ sel → S (length after) = length sel) ∧
    (v ∉ sel → length after = S (length sel)).
Proof.
  intros Hsel Hbranch. cbv zeta. rewrite (handleSelection_run _ _ _ _ _ Hsel).
  destruct (includes v sel) eqn:Hinc.
  - apply includes_true in Hinc.
    destruct (indexOf_elem_of v sel Hinc) as (i & Hidx & Hi & _).
    destruct (splice1_lookup sel i v Hi) as [Hsplice Hsplit].
    exists (take i sel ++ drop (S i) sel).
    rewrite selectOptions_arrays. simpl.
    rewrite lookup_alter_eq, Hsel, Hidx. simpl. rewrite Hsplice.
    split_and!; [done| | |done].
    + rewrite Hsplit at 3. rewrite !filter_app, filter_cons_False; [done|]. by intros [].
    + intros _. rewrite Hsplit at 3. rewrite !length_app. simpl. lia.
  - apply includes_false in Hinc. destruct Hbranch as [?|Hmulti]; [done|].
    rewrite Hmulti. exists (sel ++ [v]).
    rewrite selectOptions_arrays. simpl. rewrite lookup_alter_eq, Hsel. simpl.
    split_and!; [done| |done|].
    + rewrite filter_app, filter_cons_False, filter_nil; [by rewrite app_nil_r|].
      by intros [].
    + intros _. rewrite length_app. simpl. lia.
Qed.

Lemma handleSelection_keeps_other_values_witness :
  let p := demoProps false [0; 1; 2]%nat in
  let c := (demoWorld ["A"; "B"; "C"], initialState p) in
  arrays c.1 !! selected p = Some ["A"; "B"; "C"] ∧
  ("B" ∈ ["A"; "B"; "C"] ∨ allowMultiple p = true) ∧
  ∃ after,
    arrays (exec (handleSelection p c.2 "B") c).1 !! selected p = Some after ∧
    filter (λ x, x ≠ "B") after = ["A"; "C"].
Proof.
  cbv zeta. split; [done|].
  assert ("B" ∈ ["A"; "B"; "C"] ∨ allowMultiple (demoProps false [0; 1; 2]%nat) = true)
    as Hbranch by (left; set_solver).
  split; [done|].
  destruct (handleSelection_keeps_other_values (demoProps false [0; 1; 2]%nat)
              (initialState (demoProps false [0; 1; 2]%nat)) "B"
              (demoWorld ["A"; "B"; "C"], initialState (demoProps false [0; 1; 2]%nat))
              ["A"; "B"; "C"] eq_refl Hbranch) as (after & Hafter & Hfilter & _).
  exists after. split; [done|]. rewrite Hfilter. reflexivity.
Defined.

(** X9.  Under single-select, committing a value that is not selected
    writes into no array of the caller: every array that existed keeps its
    contents, and [onSelect] receives a new array holding just the value. *)
Theorem handleSelection_single_replaces p s v c sel :
  allowMultiple p = false →
  arrays c.1 !! selected p = Some sel →
  v ∉ sel →
  let c' := exec (handleSelection p s v) c in
  ∃ r, (r ∉ dom (arrays c.1)) ∧
       calls c'.1 = calls c.1 ++ [OnSelect r] ∧
       arrays c'.1 !! r = Some [v] ∧
       (∀ r', r' ∈ dom (arrays c.1) → arrays c'.1 !! r' = arrays c.1 !! r').
Proof.
  intros Hsingle Hsel Hnin. cbv zeta. rewrite (handleSelection_run _ _ _ _ _ Hsel).
  rewrite (proj2 (includes_false v sel) Hnin), Hsingle.
  exists (fresh (dom (arrays c.1))).
  rewrite selectOptions_calls, selectOptions_arrays. simpl.
  assert (fresh (dom (arrays c.1)) ∉ dom (arrays c.1)) as Hfresh by apply is_fresh.
  split_and!; [done|done|by rewrite lookup_insert_eq|].
  intros r' Hr'. rewrite lookup_insert_ne; [done|]. by intros <-.
Qed.

Lemma handleSelection_single_replaces_witness :
  let p := demoProps false [0; 1; 2]%nat in
  let c := (demoWorld ["A"], initialState p) in
  allowMultiple p = false ∧ arrays c.1 !! selected p = Some ["A"] ∧ ("B" ∉ ["A"]) ∧
  arrays (exec (handleSelection p c.2 "B") c).1 !! selected p = Some ["A"].
Proof.
  cbv zeta. split; [done|]. split; [done|].
  assert ("B" ∉ ["A"]) as Hnin by (by intros [=]%list_elem_of_singleton).
  split; [done|].
  destruct (handleSelection_single_replaces (demoProps false [0; 1; 2]%nat)
              (initialState (demoProps false [0; 1; 2]%nat)) "B"
              (demoWorld ["A"], initialState (demoProps false [0; 1; 2]%nat)) ["A"]
              eq_refl eq_refl Hnin) as (r & _ & _ & _ & Hkeep).
  rewrite Hkeep; [done|]. apply elem_of_dom. by eexists.
Defined.

(** ** The Enter key *)

Lemma handleEnter_run p s key c :
  exec (handleEnter p s key) c
  = if commitsOnEnter s c.1 key
    then exec (handleSelection p s
                 (default "" (selectedOption s ≫= λ o, objects c.1 !! o ≫= value)))
           (mkWorld (objects c.1) (arrays c.1) (calls c.1 ++ [PreventDefault]), c.2)
    else (mkWorld (objects c.1) (arrays c.1) (calls c.1 ++ actionOnEnter s c.1 key), c.2).
Proof.
  destruct c as [[h a k] st]. unfold handleEnter, commitsOnEnter, actionOnEnter. simpl.
  case_bool_decide as Hkey.
  - rewrite bool_decide_eq_false_2 by done. simpl. by rewrite app_nil_r.
  - rewrite bool_decide_eq_true_2 by (by destruct (decide (key = Key_Enter))).
    simpl. destruct (selectedOption s) as [o|]; simpl.
    + destruct (popoverActive s); simpl; [|by rewrite app_nil_r].
      rewrite exec_bind. simpl.
      destruct (h !! o) as [e|]; simpl.
      * destruct (isOption e); [by rewrite exec_seq|].
        destruct (onAction e); [done|]. by rewrite app_nil_r.
      * by rewrite app_nil_r.
    + destruct (popoverActive s); simpl; by rewrite app_nil_r.
Qed.

(** X10.  A key press commits nothing unless the key is Enter, the popover
    is open and the highlighted object is an option: otherwise the state,
    the objects and the arrays are as before and [onSelect] is not called.
    The one call that can be made then is the [onAction] of a highlighted
    action, and with another key, a closed popover or no highlight the
    press changes nothing at all. *)
Theorem handleEnter_without_commit p s key c :
  commitsOnEnter s c.1 key = false →
  let c' := exec (handleEnter p s key) c in
  c'.2 = c.2 ∧ objects c'.1 = objects c.1 ∧ arrays c'.1 = arrays c.1 ∧
  calls c'.1 = calls c.1 ++ actionOnEnter s c.1 key ∧
  (∀ r, OnSelect r ∉ actionOnEnter s c.1 key) ∧
  (key ≠ Key_Enter ∨ popoverActive s = false ∨ selectedOption s = None → c' = c).
Proof.
  intros Hno. cbv zeta. rewrite handleEnter_run, Hno. simpl.
  split_and!; try done.
  - intros r. unfold actionOnEnter.
    repeat case_match; set_solver.
  - intros Hidle.
    assert (actionOnEnter s c.1 key = []) as ->.
    { unfold actionOnEnter. destruct Hidle as [Hkey|[Hclosed|Hnone]].
      - by rewrite bool_decide_eq_false_2.
      - by rewrite Hclosed, andb_false_r.
      - rewrite Hnone. by case_match. }
    rewrite app_nil_r. by destruct c as [[h a k] st].
Qed.

Lemma handleEnter_without_commit_witness :
  let k := run [Focus; Navigate SelectNextOption] (mount actionProps actionWorld) in
  commitsOnEnter k.2.2 k.2.1 Key_Enter = false ∧
  calls (exec (handleEnter actionProps k.2.2 Key_Enter) k.2).1 = [OnAction 7%nat] ∧
  arrays (exec (handleEnter actionProps k.2.2 Key_Enter) k.2).1 = arrays k.2.1.
Proof.
  cbv zeta.
  set (k := run _ (mount _ _)).
  assert (commitsOnEnter k.2.2 k.2.1 Key_Enter = false) as Hno by (by vm_compute).
  split; [done|].
  destruct (handleEnter_without_commit actionProps k.2.2 Key_Enter k.2 Hno)
    as (_ & _ & Harr & Hcalls & _).
  split; [|done]. rewrite Hcalls. by vm_compute.
Defined.

(** ** The cursor stays on the list *)

Lemma js_length_nonneg {A} (l : list A) : 0 ≤ js_length l.
Proof. unfold js_length. lia. Qed.

Lemma cursorOnList_same c c' :
  navigableOptions c'.2 = navigableOptions c.2 → cursor c'.2 = cursor c.2 →
  cursorOnList c → cursorOnList c'.
Proof.
  unfold cursorOnList, cursor. intros -> [= -> ->]. done.
Qed.

Lemma cursorOnList_cleared c' :
  cursor c'.2 = (-1, None) → cursorOnList c'.
Proof.
  unfold cursorOnList, cursor. intros [= -> ->].
  pose proof (js_length_nonneg (navigableOptions c'.2)). split; [lia|done].
Qed.

Lemma cursorOnList_moved c i :
  -1 ≤ i < js_length (navigableOptions c.2) → cursorOnList (moved c i).
Proof. intros Hi. by split. Qed.

Lemma selectOptionAtIndex_cursorOnList c i :
  cursorOnList c → -1 ≤ i < js_length (navigableOptions c.2) →
  cursorOnList (exec (selectOptionAtIndex c.2 i) c).
Proof.
  intros Hc Hi. rewrite selectOptionAtIndex_moved.
  case_decide; [done|by apply cursorOnList_moved].
Qed.

Lemma cursorEffect_cursorOnList c :
  -1 ≤ selectedIndex c.2 →
  (selectedIndex c.2 = -1 → selectedOption c.2 = None) →
  cursorOnList (exec (cursorEffect c.2) c).
Proof.
  intros Hlow Hnone. unfold cursorEffect. rewrite updateIndexOfSelectedOption_run. cbv zeta.
  assert (cursorOnList (if decide (selectedIndex c.2 > js_length (navigableOptions c.2) - 1)
                        then exec (resetVisuallySelectedOptions c.2) c
                        else exec (selectOptionAtIndex c.2 (selectedIndex c.2)) c)) as Hrest.
  { case_decide as Hout.
    - apply cursorOnList_cleared. by rewrite resetVisuallySelectedOptions_run.
    - rewrite selectOptionAtIndex_moved. case_decide as Hnil.
      + assert (selectedIndex c.2 = -1) as Hi.
        { rewrite Hnil in Hout. unfold js_length in Hout. simpl in Hout. lia. }
        split; [rewrite Hi, Hnil; unfold js_length; simpl; lia|].
        rewrite Hnone, Hi by done. by rewrite Hnil.
      + apply cursorOnList_moved. lia. }
  destruct (selectedOption c.2) as [o|]; [|exact Hrest].
  destruct (decide (o ∈ navigableOptions c.2)) as [Hin|Hnin]; [|exact Hrest].
  rewrite selectOptionAtIndex_moved, decide_False.
  - apply cursorOnList_moved. apply indexOf_range.
  - intros Hnil. rewrite Hnil in Hin. by apply elem_of_nil in Hin.
Qed.

Lemma step_cursorOnList o p c :
  cursorOnList c → settles o c → cursorOnList (step o (p, c)).2.
Proof.
  intros Hc Hsettles. pose proof Hc as [Hrange Hentry].
  assert (js_length (navigableOptions c.2) = 0 ∨ 0 < js_length (navigableOptions c.2))
    as Hlen by (pose proof (js_length_nonneg (navigableOptions c.2)); lia).
  destruct o; simpl in *.
  - destruct n; simpl.
    + by apply selectOptionAtIndex_cursorOnList.
    + rewrite selectNextOption_run. case_decide as Hnil; [done|].
      apply selectOptionAtIndex_cursorOnList; [done|].
      rewrite <- js_length_zero in Hnil. case_decide; lia.
    + rewrite selectPreviousOption_run. case_decide as Hnil; [done|].
      apply selectOptionAtIndex_cursorOnList; [done|].
      rewrite <- js_length_zero in Hnil. case_decide; lia.
    + apply cursorOnList_cleared. by rewrite resetVisuallySelectedOptions_run.
  - done.
  - unfold syncSelectedEffect.
    case_bool_decide; destruct c; by apply (cursorOnList_same _ _ eq_refl eq_refl).
  - done.
  - apply cursorEffect_cursorOnList; [lia|].
    intros Hi. rewrite Hentry, Hi. done.
  - destruct (visibilityEffect_frame p c.2 c) as (_ & Hcur & Hnav & _).
    by apply (cursorOnList_same c).
  - destruct (handleSelection_state p c.2 newSelected c) as [Hst _].
    destruct (allowMultiple p).
    + apply (cursorOnList_same c); [by rewrite Hst..|done].
    + apply cursorOnList_cleared. by rewrite Hst.
  - rewrite selectOptions_run. destruct (allowMultiple p).
    + by apply (cursorOnList_same c).
    + by apply cursorOnList_cleared.
  - rewrite handleEnter_run. destruct (commitsOnEnter _ _ _).
    + set (c0 := (mkWorld _ _ _, c.2)).
      destruct (handleSelection_state p c.2
                  (default "" (selectedOption c.2 ≫= λ o, objects c.1 !! o ≫= value)) c0)
        as [Hst _].
      destruct (allowMultiple p).
      * apply (cursorOnList_same c); [by rewrite Hst..|done].
      * apply cursorOnList_cleared. by rewrite Hst.
    + by apply (cursorOnList_same c).
  - destruct c; by apply (cursorOnList_same _ _ eq_refl eq_refl).
  - destruct c; by apply (cursorOnList_same _ _ eq_refl eq_refl).
  - unfold handleBlur. rewrite !exec_seq, resetVisuallySelectedOptions_run.
    by apply cursorOnList_cleared.
  - unfold handleClick.
    destruct (negb _); destruct c; by apply (cursorOnList_same _ _ eq_refl eq_refl).
Qed.

Lemma listChanged_cursorOnList p0 p c :
  cursorOnList c → cursorOnList (run (listChanged p) (p0, c)).2.
Proof.
  intros [Hrange Hentry]. rewrite listChanged_unfold. cbv zeta.
  destruct (rebuildEffect_spec p c) as (_ & _ & Hcur & _).
  set (c1 := exec (rebuildEffect p) c) in *.
  unfold cursor in Hcur. injection Hcur as Hidx Hopt.
  assert (cursorOnList (exec (cursorEffect c1.2) c1)) as Hc2.
  { apply cursorEffect_cursorOnList; [lia|].
    intros Hi. rewrite Hopt, Hentry. rewrite Hidx in Hi. by rewrite Hi. }
  set (c2 := exec (cursorEffect c1.2) c1) in *.
  destruct (visibilityEffect_frame p c2.2 c2) as (_ & Hcur3 & Hnav3 & _).
  by apply (cursorOnList_same c2).
Qed.

(** X11.  The cursor stays on the list.  From a configuration where the
    index is [-1] or a position of the navigable list and the highlighted
    entry is the entry at that index, it is so again after every event
    other than a bare rebuild (arrows, reset, a jump to a position of the
    list, commits, Enter, Escape, focus, blur, click, renders, the cursor
    and visibility effects), and after every list change, where the cursor
    effect follows the rebuild. *)
Theorem cursor_stays_on_list p c :
  cursorOnList c →
  (∀ o, settles o c → cursorOnList (step o (p, c)).2) ∧
  (∀ p', cursorOnList (run (listChanged p') (p, c)).2).
Proof.
  intros Hc. split.
  - intros o Ho. by apply step_cursorOnList.
  - intros p'. by apply listChanged_cursorOnList.
Qed.

Lemma cursor_stays_on_list_witness :
  let k := run [Navigate SelectNextOption; Navigate SelectNextOption;
                Navigate SelectNextOption] (mount (demoProps false [0; 1; 2]%nat)
                                              (demoWorld [])) in
  cursorOnList k.2 ∧ selectedIndex k.2.2 = 2 ∧
  cursorOnList (run (listChanged (demoProps false [0%nat])) k).2.
Proof.
  cbv zeta. set (k := run _ (mount _ _)).
  assert (cursorOnList k.2) as Hc by compute_done.
  split; [done|]. split; [by vm_compute|].
  destruct k as [p c]. by apply (cursor_stays_on_list p c Hc).
Defined.

(** ** Leaving the control *)

Lemma activeEntries_cleared c c' :
  objects c'.1 = setActiveAll false (navigableOptions c.2) (objects c.1) →
  navigableOptions c'.2 = navigableOptions c.2 →
  activeEntries c' = [].
Proof.
  intros Hobj Hnav. unfold activeEntries. rewrite Hobj, Hnav.
  apply filter_Forall_none, Forall_forall. intros o Hin.
  by rewrite isActive_setActiveAll_false.
Qed.

(** X12.  Blur, and a commit under single-select (by click or by Enter on
    an option), leave the control idle whatever it looked like before: no
    entry of the navigable list is active, even one the caller had marked,
    the cursor is [(-1, none)], the popover is closed and
    [popoverWasActive] is cleared. *)
Theorem blur_and_single_commit_reset p c (o : Op) :
  o = Blur ∨ (allowMultiple p = false ∧ ((∃ v, o = Select v) ∨ (∃ r, o = Change r))) →
  let c' := (step o (p, c)).2 in
  activeEntries c' = [] ∧ cursor c'.2 = (-1, None) ∧
  popoverActive c'.2 = false ∧ popoverWasActive c'.2 = false ∧
  navigableOptions c'.2 = navigableOptions c.2.
Proof.
  intros [->|[Hsingle [[v ->]|[r ->]]]]; cbv zeta; simpl.
  - unfold handleBlur. rewrite !exec_seq, resetVisuallySelectedOptions_run.
    split_and!; try done. by apply (activeEntries_cleared c).
  - destruct (handleSelection_state p c.2 v c) as [Hst Hobj].
    rewrite Hsingle in Hst, Hobj. rewrite Hst. split_and!; try done.
    apply (activeEntries_cleared c); [done|by rewrite Hst].
  - rewrite selectOptions_run, Hsingle. split_and!; try done.
    by apply (activeEntries_cleared c).
Qed.

Lemma blur_and_single_commit_reset_witness :
  let k := run [Focus; Navigate SelectNextOption]
             (mount (demoProps false [0; 1; 2]%nat) (demoWorld [])) in
  activeEntries k.2 = [4%nat] ∧
  activeEntries (step (Select "A") k).2 = [] ∧
  popoverActive (step (Select "A") k).2.2 = false.
Proof.
  cbv zeta. set (k := run _ (mount _ _)).
  assert (k.1 = demoProps false [0; 1; 2]%nat) as Hp by reflexivity.
  split; [by vm_compute|].
  destruct k as [p c]. simpl in Hp. subst p.
  destruct (blur_and_single_commit_reset (demoProps false [0; 1; 2]%nat) c (Select "A"))
    as (Hact & _ & Hclosed & _).
  { right. split; [done|]. left. by eexists. }
  done.
Defined.

(** ** A dismissed popover stays closed *)

(** The popover flag after a list change, as a function of what was there
    before. *)
Lemma listChanged_popover_eq p0 p c :
  let after := (run (listChanged p) (p0, c)).2.2 in
  popoverWasActive after = popoverWasActive c.2 ∧
  popoverActive after
  = if decide (entriesOf p = [])
    then if contentBefore p || contentAfter p || emptyState p
         then popoverActive c.2 else false
    else if popoverWasActive c.2 then true else popoverActive c.2.
Proof.
  cbv zeta. rewrite listChanged_unfold. cbv zeta.
  destruct (rebuildEffect_spec p c)
    as (_ & _ & _ & _ & Hact & Hwas & Hlen & _).
  set (c1 := exec (rebuildEffect p) c) in *.
  destruct (updateIndexOfSelectedOption_frame c1.2 (navigableOptions c1.2) c1)
    as (Hnav2 & Hact2 & Hwas2 & _).
  fold (cursorEffect c1.2) in Hnav2, Hact2, Hwas2.
  set (c2 := exec (cursorEffect c1.2) c1) in *.
  assert (navigableOptions c2.2 = [] ↔ entriesOf p = []) as Hnil.
  { rewrite Hnav2. rewrite <- !length_zero_iff_nil. by rewrite Hlen. }
  destruct (visibilityEffect_frame p c2.2 c2) as (_ & _ & _ & Hwas3 & _).
  cbn [snd]. split; [by rewrite Hwas3, Hwas2, Hwas|].
  rewrite visibilityEffect_run.
  destruct (decide (navigableOptions c2.2 = [])) as [He|He].
  - rewrite decide_True by (by apply Hnil).
    destruct (contentBefore p || contentAfter p || emptyState p).
    + by rewrite Hact2, Hact.
    + by destruct c2.
  - rewrite decide_False by (by rewrite <- Hnil).
    rewrite <- Hwas, <- Hwas2.
    destruct (popoverWasActive c2.2); [by destruct c2|by rewrite Hact2, Hact].
Qed.

Lemma run_app ops1 ops2 k : run (ops1 ++ ops2) k = run ops2 (run ops1 k).
Proof. unfold run. apply foldl_app. Qed.

Lemma listChanges_closed ps p (c : Config) :
  popoverActive c.2 = false → popoverWasActive c.2 = false →
  popoverActive (run (listChanges ps) (p, c)).2.2 = false ∧
  popoverWasActive (run (listChanges ps) (p, c)).2.2 = false.
Proof.
  revert p c. induction ps as [|p' ps IH]; intros p c Hact Hwas; [done|].
  change (listChanges (p' :: ps)) with (listChanged p' ++ listChanges ps).
  rewrite run_app.
  pose proof (listChanged_popover_eq p p' c) as Hstep. cbv beta zeta in Hstep.
  destruct Hstep as [Hwas' Hact'].
  set (k1 := run (listChanged p') (p, c)) in *. clearbody k1.
  destruct k1 as [p1 c1]. cbn [snd] in Hwas', Hact'.
  apply IH; [|by rewrite Hwas'].
  rewrite Hact', Hact, Hwas. by repeat case_match.
Qed.



(** ** Mounting *)

(** X14.  Mounting highlights nothing and opens nothing, whatever the
    props and the store: the navigable list has one entry per action and
    option of the props, the cursor is on the list at [(-1, none)], the
    popover is closed and not remembered as open, no callback is called,
    no array is written and every object of the store is as it was. *)
Theorem mount_is_idle p w :
  let k := mount p w in
  k.1 = p ∧
  length (navigableOptions k.2.2) = length (entriesOf p) ∧
  cursor k.2.2 = (-1, None) ∧ cursorOnList k.2 ∧
  popoverActive k.2.2 = false ∧ popoverWasActive k.2.2 = false ∧
  calls k.2.1 = calls w ∧ arrays k.2.1 = arrays w ∧ objects w ⊆ objects k.2.1.
Proof.
  cbv zeta.
  change (mount p w) with (run (listChanged p) (p, (w, initialState p))).
  set (c := (w, initialState p)).
  assert (cursorOnList c) as Hc.
  { split; [unfold js_length; simpl; lia|done]. }
  pose proof (listChanged_cursorOnList p p c Hc) as Hon.
  destruct (listChanged_popover_eq p p c) as [Hwas Hact].
  pose proof (run_callerOwned (objects w) (listChanged p) p c (callerOwned_initial p w))
    as (Hsub & _).
  rewrite listChanged_unfold in *. cbv zeta in *.
  destruct (rebuildEffect_spec p c) as (Harr & Hcalls & Hcur & _ & _ & _ & Hlen & _).
  set (c1 := exec (rebuildEffect p) c) in *.
  destruct (updateIndexOfSelectedOption_frame c1.2 (navigableOptions c1.2) c1)
    as (Hnav2 & _ & _ & _ & Harr2 & Hcalls2).
  fold (cursorEffect c1.2) in Hnav2, Harr2, Hcalls2.
  assert (cursor (exec (cursorEffect c1.2) c1).2 = (-1, None)) as Hcur2.
  { unfold cursor in Hcur. simpl in Hcur. injection Hcur as Hidx Hopt.
    rewrite cursorEffect_gone by (by rewrite Hopt).
    pose proof (js_length_nonneg (navigableOptions c1.2)) as Hnn.
    destruct (decide (selectedIndex c1.2 > js_length (navigableOptions c1.2) - 1))
      as [Hout|_]; [lia|].
    rewrite selectOptionAtIndex_run. unfold cursor.
    destruct (decide (navigableOptions c1.2 = [])); simpl; rewrite ?Hidx, ?Hopt; done. }
  set (c2 := exec (cursorEffect c1.2) c1) in *.
  destruct (visibilityEffect_frame p c2.2 c2) as (Hw3 & Hcur3 & Hnav3 & _).
  cbn [fst snd] in *.
  split_and!; try done.
  - by rewrite Hnav3, Hnav2.
  - by rewrite Hcur3.
  - rewrite Hact. simpl. by repeat case_match.
  - by rewrite Hw3, Hcalls2, Hcalls.
  - by rewrite Hw3, Harr2, Harr.
Qed.

(** ** The id of the highlighted entry *)

Lemma pretty_Z_of_nat (j : nat) : pretty (Z.of_nat j) = pretty j.
Proof. by destruct j. Qed.

Lemma assignOptionIds_from_ids k opts i c :
  let r := assignOptionIds_from k opts i c in
  ∀ (j : nat) l, r.1 !! j = Some l →
    objects r.2.1 !! l ≫= id = Some (i +:+ "-" +:+ pretty (k + j)%nat).
Proof.
  cbv zeta. revert k c. induction opts as [|o opts IH]; intros k [[h a cs] st] j l Hj.
  - simpl in Hj. by rewrite lookup_nil in Hj.
  - revert Hj. cbn [assignOptionIds_from]. rewrite !run_bind. simpl.
    set (e0 := with_id _ _). set (l0 := fresh (dom h)).
    pose proof (assignOptionIds_from_spec (S k) opts i (mkWorld (<[l0 := e0]> h) a cs, st))
      as (_ & _ & _ & _ & _ & Hfresh & _ & Hold).
    simpl in Hfresh, Hold.
    destruct j as [|j]; simpl; intros Hj.
    + injection Hj as <-. rewrite Hold.
      * rewrite lookup_insert_eq. simpl. by rewrite Nat.add_0_r.
      * intros Hin%Hfresh. apply Hin. set_solver.
    + rewrite (IH (S k) (mkWorld (<[l0 := e0]> h) a cs, st) j l Hj).
      by rewrite Nat.add_succ_r.
Qed.

Lemma alter_active_id b o (h : gmap loc Entry) l :
  alter (with_active b) o h !! l ≫= id = h !! l ≫= id.
Proof.
  destruct (decide (o = l)) as [->|Hne].
  - rewrite lookup_alter_eq. by destruct (h !! l).
  - by rewrite lookup_alter_ne.
Qed.

Lemma highlight_id newOption oldOption h l :
  highlight newOption oldOption h !! l ≫= id = h !! l ≫= id.
Proof.
  unfold highlight. destruct newOption, oldOption; by rewrite ?alter_active_id.
Qed.

Lemma setActiveAll_id b ls h l : setActiveAll b ls h !! l ≫= id = h !! l ≫= id.
Proof.
  revert h. induction ls as [|o ls IH]; intros h; [done|].
  unfold setActiveAll in *. simpl. by rewrite IH, alter_active_id.
Qed.

(** What leaves the ids in place: the list is the same and every object
    has the id it had. *)
Lemma idsPositional_same p c c' :
  navigableOptions c'.2 = navigableOptions c.2 →
  (∀ l, objects c'.1 !! l ≫= id = objects c.1 !! l ≫= id) →
  idsPositional p c → idsPositional p c'.
Proof.
  intros Hnav Hid Hpos j l Hj. rewrite Hnav in Hj. rewrite Hid. by apply Hpos.
Qed.

Lemma moved_ids p c i : idsPositional p c → idsPositional p (moved c i).
Proof. apply idsPositional_same; [done|]. intros l. simpl. apply highlight_id. Qed.

Lemma cleared_ids p c c' :
  objects c'.1 = setActiveAll false (navigableOptions c.2) (objects c.1) →
  navigableOptions c'.2 = navigableOptions c.2 →
  idsPositional p c → idsPositional p c'.
Proof.
  intros Hobj Hnav. apply idsPositional_same; [done|].
  intros l. rewrite Hobj. apply setActiveAll_id.
Qed.

Lemma selectOptionAtIndex_ids p c i :
  idsPositional p c → idsPositional p (exec (selectOptionAtIndex c.2 i) c).
Proof.
  intros Hpos. rewrite selectOptionAtIndex_moved. case_decide; [done|by apply moved_ids].
Qed.

Lemma cursorEffect_ids p c :
  idsPositional p c → idsPositional p (exec (cursorEffect c.2) c).
Proof.
  intros Hpos. unfold cursorEffect. rewrite updateIndexOfSelectedOption_run. cbv zeta.
  assert (idsPositional p (exec (resetVisuallySelectedOptions c.2) c)) as Hreset.
  { rewrite resetVisuallySelectedOptions_run. by apply (cleared_ids p c). }
  destruct (selectedOption c.2); repeat case_decide; auto using selectOptionAtIndex_ids.
Qed.

Lemma step_ids o p c :
  keepsList o → idsPositional p c →
  (step o (p, c)).1 = p ∧ idsPositional p (step o (p, c)).2.
Proof.
  intros Hkeeps Hpos. destruct o; simpl in *; (split; [done|]).
  - destruct n; simpl; [done| | |].
    + rewrite selectNextOption_run. case_decide; [done|by apply selectOptionAtIndex_ids].
    + rewrite selectPreviousOption_run. case_decide; [done|by apply selectOptionAtIndex_ids].
    + rewrite resetVisuallySelectedOptions_run. by apply (cleared_ids p c).
  - done.
  - unfold syncSelectedEffect.
    case_bool_decide; destruct c; by apply (idsPositional_same p _ _ eq_refl).
  - done.
  - by apply cursorEffect_ids.
  - destruct (visibilityEffect_frame p c.2 c) as (Hw & _ & Hnav & _).
    apply (idsPositional_same p c); [done|by rewrite Hw|done].
  - destruct (handleSelection_state p c.2 newSelected c) as [Hst Hobj].
    destruct (allowMultiple p).
    + apply (idsPositional_same p c); [by rewrite Hst|by rewrite Hobj|done].
    + apply (cleared_ids p c); [done|by rewrite Hst|done].
  - rewrite selectOptions_run. destruct (allowMultiple p).
    + by apply (idsPositional_same p c).
    + by apply (cleared_ids p c).
  - rewrite handleEnter_run. destruct (commitsOnEnter _ _ _).
    + set (c0 := (mkWorld _ _ _, c.2)).
      destruct (handleSelection_state p c.2
                  (default "" (selectedOption c.2 ≫= λ o, objects c.1 !! o ≫= value)) c0)
        as [Hst Hobj].
      destruct (allowMultiple p).
      * apply (idsPositional_same p c); [by rewrite Hst|by rewrite Hobj|done].
      * apply (cleared_ids p c); [done|by rewrite Hst|done].
    + by apply (idsPositional_same p c).
  - destruct c; by apply (idsPositional_same p _ _ eq_refl).
  - destruct c; by apply (idsPositional_same p _ _ eq_refl).
  - unfold handleBlur. rewrite !exec_seq, resetVisuallySelectedOptions_run.
    by apply (cleared_ids p c).
  - unfold handleClick.
    destruct (negb _); destruct c; by apply (idsPositional_same p _ _ eq_refl).
Qed.

Lemma listChanged_ids p0 p c : idsPositional p (run (listChanged p) (p0, c)).2.
Proof.
  rewrite listChanged_unfold. cbv zeta.
  assert (idsPositional p (exec (rebuildEffect p) c)) as Hpos1.
  { intros j l Hj. rewrite rebuildEffect_run in Hj |- *. cbv zeta in Hj |- *.
    simpl in Hj |- *. unfold assignOptionIds in *.
    by rewrite (assignOptionIds_from_ids 0 (entriesOf p) (uniqueId p) c j l Hj). }
  set (c1 := exec (rebuildEffect p) c) in *.
  pose proof (cursorEffect_ids p c1 Hpos1) as Hpos2.
  set (c2 := exec (cursorEffect c1.2) c1) in *.
  destruct (visibilityEffect_frame p c2.2 c2) as (Hw & _ & Hnav & _).
  cbn [snd]. apply (idsPositional_same p c2); [done|by rewrite Hw|done].
Qed.

Lemma keepsList_settles o c : keepsList o → settles o c.
Proof. destruct o as [[]| | | | | | | | | | | |]; simpl; tauto. Qed.

(** X15.  The id the component announces for the highlighted entry is
    that entry's own id.  After a list change, and then any sequence of
    arrows, resets, commits, keys, focus, blur, click and effects (no new
    render), whenever an entry is highlighted, the [id] stamped on that
    entry by [assignOptionIds] is [selectedOptionId]. *)
Theorem selectedOptionId_is_highlighted_id p0 p (c : Config) (ops : list Op) :
  cursorOnList c → Forall keepsList ops →
  let k := run (listChanged p ++ ops) (p0, c) in
  ∀ l, selectedOption k.2.2 = Some l →
    objects k.2.1 !! l ≫= id = selectedOptionId k.1 k.2.2.
Proof.
  intros Hc Hops. cbv zeta. rewrite run_app.
  pose proof (listChanged_cursorOnList p0 p c Hc) as Hon.
  pose proof (listChanged_ids p0 p c) as Hids.
  assert ((run (listChanged p) (p0, c)).1 = p) as Hp by reflexivity.
  set (k1 := run (listChanged p) (p0, c)) in *. clearbody k1.
  destruct k1 as [p1 c1]. simpl in Hp. subst p1. cbn [snd] in Hon, Hids.
  assert ((run ops (p, c1)).1 = p ∧ cursorOnList (run ops (p, c1)).2 ∧
          idsPositional p (run ops (p, c1)).2) as (Hp' & [Hrange Hentry] & Hids').
  { clear Hc. revert c1 Hon Hids.
    induction Hops as [|o ops Ho Hops IH]; intros c1 Hon Hids; [done|].
    rewrite run_cons.
    pose proof (step_cursorOnList o p c1 Hon (keepsList_settles o c1 Ho)) as Hon'.
    destruct (step_ids o p c1 Ho Hids) as [Hp' Hids'].
    set (k2 := step o (p, c1)) in *. clearbody k2.
    destruct k2 as [p2 c2]. simpl in Hp'. subst p2. by apply IH. }
  set (k := run ops (p, c1)) in *. clearbody k.
  destruct k as [p' c']. simpl in Hp'. subst p'. cbn [fst snd] in *.
  intros l Hl. unfold selectedOptionId. rewrite Hl.
  rewrite Hentry in Hl. unfold js_get in Hl.
  case_decide as Hnonneg; [|done].
  rewrite (Hids' _ _ Hl). rewrite <- pretty_Z_of_nat.
  by rewrite Z2Nat.id by done.
Qed.

Lemma selectedOptionId_is_highlighted_id_witness :
  let ops := [Focus; Navigate SelectNextOption; CursorEffect;
              Navigate SelectNextOption; CursorEffect] in
  let c : Config := (demoWorld ["A"], initialState (demoProps true [])) in
  let k := run (listChanged (demoProps true [0; 1; 2]%nat) ++ ops) (demoProps true [], c) in
  cursorOnList c ∧ Forall keepsList ops ∧
  selectedOption k.2.2 = Some 5%nat ∧
  selectedOptionId k.1 k.2.2 = Some "ComboBox1-1" ∧
  objects k.2.1 !! 5%nat ≫= id = selectedOptionId k.1 k.2.2.
Proof.
  cbv zeta.
  assert (Forall keepsList [Focus; Navigate SelectNextOption; CursorEffect;
                            Navigate SelectNextOption; CursorEffect]) as Hops
    by compute_done.
  assert (cursorOnList (demoWorld ["A"], initialState (demoProps true []))) as Hc
    by compute_done.
  split; [done|]. split; [done|]. split; [by vm_compute|]. split; [by vm_compute|].
  apply (selectedOptionId_is_highlighted_id (demoProps true [])
           (demoProps true [0; 1; 2]%nat)
           (demoWorld ["A"], initialState (demoProps true [])) _ Hc Hops).
  by vm_compute.
Defined.

(** ** What the popover remembers *)

Lemma listChanges_keep_memory ps p (c : Config) :
  popoverWasActive (run (listChanges ps) (p, c)).2.2 = popoverWasActive c.2.
Proof.
  revert p c. induction ps as [|p' ps IH]; intros p c; [done|].
  change (listChanges (p' :: ps)) with (listChanged p' ++ listChanges ps).
  rewrite run_app.
  pose proof (listChanged_popover_eq p p' c) as Hstep. cbv beta zeta in Hstep.
  destruct Hstep as [Hwas' _].
  set (k1 := run (listChanged p') (p, c)) in *. clearbody k1.
  destruct k1 as [p1 c1]. by rewrite IH.
Qed.

(** X16.  Focus is remembered across list changes: once the control has
    been focused, after any run of list changes that ends with a list that
    is not empty the popover is open, whatever happened in between (lists
    that became empty and closed it included). *)
Theorem focus_reopens_after_list_changes p (c : Config) ps pLast :
  entriesOf pLast ≠ [] →
  let k := run (Focus :: listChanges (ps ++ [pLast])) (p, c) in
  popoverActive k.2.2 = true ∧ popoverWasActive k.2.2 = true.
Proof.
  intros Hne. cbv zeta. rewrite run_cons.
  assert (popoverWasActive (step Focus (p, c)).2.2 = true) as Hwas by (by destruct c).
  set (k0 := step Focus (p, c)) in *. clearbody k0. destruct k0 as [p0 c0].
  unfold listChanges. rewrite bind_app, run_app. fold (listChanges ps).
  pose proof (listChanges_keep_memory ps p0 c0) as Hkeep.
  set (k1 := run (listChanges ps) (p0, c0)) in *. clearbody k1.
  destruct k1 as [p1 c1]. cbn [snd] in Hkeep, Hwas.
  change ([pLast] ≫= listChanged) with (listChanged pLast ++ []).
  rewrite app_nil_r.
  pose proof (listChanged_popover_eq p1 pLast c1) as Hstep. cbv beta zeta in Hstep.
  destruct Hstep as [-> ->].
  rewrite decide_False by done. by rewrite Hkeep, Hwas.
Qed.

Lemma focus_reopens_after_list_changes_witness :
  let k0 := mount (demoProps true [0%nat]) (demoWorld []) in
  entriesOf (demoProps true [0; 1]%nat) ≠ [] ∧
  popoverActive (run (Focus :: listChanges [demoProps true []]) k0).2.2 = false ∧
  popoverActive
    (run (Focus :: listChanges ([demoProps true []] ++ [demoProps true [0; 1]%nat]))
       k0).2.2 = true.
Proof.
  cbv zeta. split; [done|]. split; [by vm_compute|].
  set (k0 := mount _ _). destruct k0 as [p c].
  by destruct (focus_reopens_after_list_changes p c [demoProps true []]
                 (demoProps true [0; 1]%nat)).
Defined.

(** X17.  A click is not remembered.  When the popover was not remembered
    as open, a click opens it without setting [popoverWasActive]; if the
    list then becomes empty with no extra content the popover closes, and
    no later list change opens it again. *)
Theorem click_is_not_remembered p (c : Config) pEmpty ps :
  popoverWasActive c.2 = false →
  entriesOf pEmpty = [] →
  contentBefore pEmpty || contentAfter pEmpty || emptyState pEmpty = false →
  let k1 := step Click (p, c) in
  let k := run (listChanged pEmpty ++ listChanges ps) k1 in
  popoverActive k1.2.2 = true ∧ popoverWasActive k1.2.2 = false ∧
  popoverActive k.2.2 = false.
Proof.
  intros Hwas Hnil Haux. cbv zeta.
  assert (popoverActive (step Click (p, c)).2.2 = true ∧
          popoverWasActive (step Click (p, c)).2.2 = false) as [Hact1 Hwas1].
  { simpl. unfold handleClick. destruct c as [w [so si ss nav [] pw]]; simpl in *; done. }
  split; [done|]. split; [done|].
  set (k1 := step Click (p, c)) in *. clearbody k1. destruct k1 as [p1 c1].
  rewrite run_app.
  pose proof (listChanged_popover_eq p1 pEmpty c1) as Hstep. cbv beta zeta in Hstep.
  destruct Hstep as [Hwas2 Hact2].
  rewrite decide_True, Haux in Hact2 by done.
  set (k2 := run (listChanged pEmpty) (p1, c1)) in *. clearbody k2.
  destruct k2 as [p2 c2]. cbn [snd] in *.
  apply listChanges_closed; [done|by rewrite Hwas2].
Qed.

Lemma click_is_not_remembered_witness :
  let k0 := mount (demoProps true [0%nat]) (demoWorld []) in
  popoverWasActive k0.2.2 = false ∧
  popoverActive
    (run (listChanged (demoProps true []) ++ listChanges [demoProps true [0; 1]%nat])
       (step Click k0)).2.2 = false.
Proof.
  cbv zeta. set (k0 := mount _ _).
  assert (popoverWasActive k0.2.2 = false) as Hwas by (by vm_compute).
  split; [done|]. destruct k0 as [p c].
  by destruct (click_is_not_remembered p c (demoProps true [])
                 [demoProps true [0; 1]%nat] Hwas eq_refl eq_refl) as (_ & _ & Hclosed).
Defined.


(** ** The popover after a render with new props *)

Lemma propsChanged_unfold contentChanged p0 p (c : Config) :
  run (propsChanged contentChanged p) (p0, c)
  = run (listChanged p)
      (p0, if contentChanged then exec (visibilityEffect p c.2) c else c).
Proof. by destruct contentChanged. Qed.

Lemma listChanged_length p0 p (c : Config) :
  length (navigableOptions (run (listChanged p) (p0, c)).2.2) = length (entriesOf p).
Proof.
  rewrite listChanged_unfold. cbv zeta.
  destruct (rebuildEffect_spec p c) as (_ & _ & _ & _ & _ & _ & Hlen & _).
  set (c1 := exec (rebuildEffect p) c) in *.
  destruct (updateIndexOfSelectedOption_frame c1.2 (navigableOptions c1.2) c1)
    as (Hnav2 & _).
  fold (cursorEffect c1.2) in Hnav2.
  set (c2 := exec (cursorEffect c1.2) c1) in *.
  destruct (visibilityEffect_frame p c2.2 c2) as (_ & _ & Hnav3 & _).
  cbn [snd]. by rewrite Hnav3, Hnav2.
Qed.

(** C8.  When the navigable list changes, that is after a render with new
    props and the effects it sets off (the visibility effect on the old
    list when a content prop is new, the rebuild, then the cursor and
    visibility effects on the new list), the navigable list has one entry
    per action and option of the props and the popover is: closed when
    that list is empty and there is no [contentBefore], [contentAfter] or
    [emptyState], whatever it was before; open when [popoverWasActive] was
    set and the list is non-empty.  [popoverWasActive] itself is kept. *)
Theorem propsChanged_popover (contentChanged : bool) p0 p (c : Config) :
  let aux := contentBefore p || contentAfter p || emptyState p in
  let after := (run (propsChanged contentChanged p) (p0, c)).2.2 in
  length (navigableOptions after) = length (entriesOf p) ∧
  popoverWasActive after = popoverWasActive c.2 ∧
  (entriesOf p = [] → aux = false → popoverActive after = false) ∧
  (entriesOf p ≠ [] → popoverWasActive c.2 = true → popoverActive after = true).
Proof.
  cbv zeta. rewrite propsChanged_unfold.
  set (c0 := if contentChanged then exec (visibilityEffect p c.2) c else c).
  assert (popoverWasActive c0.2 = popoverWasActive c.2) as Hwas0.
  { unfold c0. destruct contentChanged; [|done].
    by destruct (visibilityEffect_frame p c.2 c) as (_ & _ & _ & Hwas & _). }
  pose proof (listChanged_length p0 p c0) as Hlen.
  pose proof (listChanged_popover_eq p0 p c0) as Hstep. cbv beta zeta in Hstep.
  destruct Hstep as [Hwas Hact].
  rewrite Hact, Hwas, Hwas0. split_and!; [done | done | |].
  - intros Hnil Haux. by rewrite decide_True, Haux by done.
  - intros Hne Hw. by rewrite decide_False, Hw by done.
Qed.

(** The transient-empty scenario: the popover was opened by focus while an
    option was listed; the options go away and it closes; an option comes
    back and it opens again. *)
Lemma propsChanged_popover_witness :
  let k0 := run [Focus] (mount (demoProps true [0%nat]) (demoWorld [])) in
  let k1 := run (propsChanged false (demoProps true [])) k0 in
  let k2 := run (propsChanged false (demoProps true [0%nat])) k1 in
  (popoverActive k0.2.2 = true ∧ popoverWasActive k0.2.2 = true) ∧
  (navigableOptions k1.2.2 = [] ∧ popoverActive k1.2.2 = false) ∧
  popoverWasActive k1.2.2 = true ∧
  popoverActive k2.2.2 = true.
Proof.
  cbv zeta. split; [by vm_compute|]. split; [by vm_compute|].
  set (k1 := run (propsChanged false (demoProps true [])) _).
  assert (popoverWasActive k1.2.2 = true) as Hwas by (by vm_compute).
  split; [done|].
  destruct k1 as [p1 c1]. simpl in Hwas.
  destruct (propsChanged_popover false p1 (demoProps true [0%nat]) c1)
    as (_ & _ & _ & Hopen).
  by apply Hopen.
Defined.

(** A render that takes the placeholder away: the popover was opened by a
    click on an empty list shown with its empty-state placeholder; the
    props that bring an option no longer carry the placeholder, the
    visibility effect of that render sees the empty list without it and
    closes the popover, and the new list does not open it again. *)
Example propsChanged_without_placeholder :
  let k0 := run [Click] (mount (emptyProps true) (demoWorld [])) in
  let k1 := run (propsChanged true (demoProps false [0%nat])) k0 in
  navigableOptions k0.2.2 = [] ∧ popoverActive k0.2.2 = true ∧
  navigableOptions k1.2.2 = [4%nat] ∧ popoverActive k1.2.2 = false.
Proof. vm_compute. split_and!; done. Qed.
